(** * zcode: the length-field frame decoder

    A shallow embedding of [zcode/lengthfieldframedecoder.go] and the
    properties of its specification, settled against the code.

    Conventions.
    - Go's [int] and [int64] are both read as 64-bit two's-complement
      integers (a 64-bit platform); they are modelled by [Z], with the
      wrap-around [wrap64] written where the source does arithmetic.
    - A byte is a [Byte.byte]; [u8] is its value in [0, 255].
    - A Go panic is an outcome of its own ([Panics]); the state reached
      when the panic is raised is kept, because the mutations done before
      a panic stay visible to a caller that recovers. *)

From Stdlib Require Import String ZArith List Lia Bool.
From Stdlib.Strings Require Import Byte.
Import ListNotations.
Local Open Scope Z_scope.

(** ** Machine integers *)

Definition wrap64 (z : Z) : Z := (z + 2 ^ 63) mod 2 ^ 64 - 2 ^ 63.

Definition u8 (b : byte) : Z := Z.of_N (Byte.to_N b).

(** Go's conversions [int16(x)], [int32(x)] and [int64(x)] of an unsigned
    value of the same width. *)
Definition to_signed (w : Z) (u : Z) : Z := (u + 2 ^ (w - 1)) mod 2 ^ w - 2 ^ (w - 1).

(** ** [bytes.Buffer]

    The buffer is a window [unread] of a backing array.  Go bounds a slice
    expression [s[lo:hi]] by the capacity of [s], not by its length, and
    [Buffer.Bytes] returns a slice whose capacity reaches the end of the
    backing array.  The decoder slices that result, so the model keeps the
    rest of the array: [before] holds the bytes already read (in front of
    the read offset), [after] the bytes past the last written one. *)

Module Buffer.

Record t : Type := mk {
  before : list byte;
  unread : list byte;
  after : list byte
}.

(** [bytes.NewBuffer([]byte{})] *)
Definition NewBuffer : t := mk [] [] [].

Definition Len (b : t) : Z := Z.of_nat (length (unread b)).

(** [Reset]: the window becomes empty at the start of the array. *)
Definition Reset (b : t) : t :=
  mk [] [] (before b ++ unread b ++ after b).

(** [Next(n)]: advances by [min n Len] bytes; a negative [n] makes the
    slice expression inside [Next] panic ([None]). *)
Definition Next (n : Z) (b : t) : option t :=
  if n <? 0 then None
  else
    let m := Len b in
    let n := if n >? m then m else n in
    Some (mk (before b ++ firstn (Z.to_nat n) (unread b))
             (skipn (Z.to_nat n) (unread b))
             (after b)).

(** [Read(p)]: copies [min (len p) Len] bytes into the front of [p]; an
    empty buffer is reset and nothing is copied. *)
Definition Read (p : list byte) (b : t) : list byte * t :=
  match unread b with
  | [] => (p, Reset b)
  | _ =>
      let n := Nat.min (length p) (length (unread b)) in
      (firstn n (unread b) ++ skipn n p,
       mk (before b ++ firstn n (unread b)) (skipn n (unread b)) (after b))
  end.

(** What a [Write] leaves around the buffered bytes.  [Write] reslices,
    slides the data down or allocates a new array, by the capacity at
    hand and by the growth policy of the Go release, so the contents of
    the array around the window after a write are given to the model:
    the theorems below quantify over them.  [fresh room] is a newly
    allocated (zeroed) array with [room] bytes of capacity to spare, the
    only layout a first write to a new buffer produces. *)
Record Layout : Type := layout {
  lay_before : list byte;
  lay_after : list byte
}.

Definition fresh (room : nat) : Layout := layout [] (repeat x00 room).

Definition Write (p : list byte) (lay : Layout) (b : t) : t :=
  mk (lay_before lay) (unread b ++ p) (lay_after lay).

(** A Go slice value: its elements and the capacity behind them. *)
Record slice : Type := mkslice {
  elems : list byte;
  room : list byte
}.

(** [Bytes()] is [b.buf[b.off:]]. *)
Definition Bytes (b : t) : slice := mkslice (unread b) (after b).

(** The slice expression [s[lo:hi]]: it panics ([None]) unless
    [0 <= lo <= hi <= cap s]. *)
Definition reslice (s : slice) (lo hi : Z) : option slice :=
  let arr := elems s ++ room s in
  if (0 <=? lo) && (lo <=? hi) && (hi <=? Z.of_nat (length arr)) then
    Some (mkslice (firstn (Z.to_nat (hi - lo)) (skipn (Z.to_nat lo) arr))
                  (skipn (Z.to_nat hi) arr))
  else None.

(** The index expression [s[i]], read where it is in range. *)
Definition index (s : slice) (i : nat) : byte := nth i (elems s) x00.

End Buffer.

(** ** [encoding/binary] *)

Inductive ByteOrder : Type := BigEndian | LittleEndian.

Module binary.

Definition nthb (bs : list byte) (i : nat) : Z := u8 (nth i bs x00).

Definition Uint16 (order : ByteOrder) (b : list byte) : Z :=
  match order with
  | BigEndian => Z.lor (nthb b 1) (Z.shiftl (nthb b 0) 8)
  | LittleEndian => Z.lor (nthb b 0) (Z.shiftl (nthb b 1) 8)
  end.

Definition Uint32 (order : ByteOrder) (b : list byte) : Z :=
  match order with
  | BigEndian =>
      Z.lor (Z.lor (Z.lor (nthb b 3) (Z.shiftl (nthb b 2) 8))
                   (Z.shiftl (nthb b 1) 16))
            (Z.shiftl (nthb b 0) 24)
  | LittleEndian =>
      Z.lor (Z.lor (Z.lor (nthb b 0) (Z.shiftl (nthb b 1) 8))
                   (Z.shiftl (nthb b 2) 16))
            (Z.shiftl (nthb b 3) 24)
  end.

Definition Uint64 (order : ByteOrder) (b : list byte) : Z :=
  match order with
  | BigEndian =>
      Z.lor (Z.lor (Z.lor (Z.lor (Z.lor (Z.lor (Z.lor
        (nthb b 7) (Z.shiftl (nthb b 6) 8)) (Z.shiftl (nthb b 5) 16))
        (Z.shiftl (nthb b 4) 24)) (Z.shiftl (nthb b 3) 32))
        (Z.shiftl (nthb b 2) 40)) (Z.shiftl (nthb b 1) 48))
        (Z.shiftl (nthb b 0) 56)
  | LittleEndian =>
      Z.lor (Z.lor (Z.lor (Z.lor (Z.lor (Z.lor (Z.lor
        (nthb b 0) (Z.shiftl (nthb b 1) 8)) (Z.shiftl (nthb b 2) 16))
        (Z.shiftl (nthb b 3) 24)) (Z.shiftl (nthb b 4) 32))
        (Z.shiftl (nthb b 5) 40)) (Z.shiftl (nthb b 6) 48))
        (Z.shiftl (nthb b 7) 56)
  end.

(** [binary.Read(r, order, &value)] for the four types the decoder reads
    into.  The reader holds [bs]; when it is too short [Read] returns an
    error, which the decoder drops, and [value] keeps its zero. *)
Definition Read_uint8 (bs : list byte) : Z :=
  if (length bs <? 1)%nat then 0 else nthb bs 0.

Definition Read_int16 (order : ByteOrder) (bs : list byte) : Z :=
  if (length bs <? 2)%nat then 0 else to_signed 16 (Uint16 order bs).

Definition Read_int32 (order : ByteOrder) (bs : list byte) : Z :=
  if (length bs <? 4)%nat then 0 else to_signed 32 (Uint32 order bs).

Definition Read_int64 (order : ByteOrder) (bs : list byte) : Z :=
  if (length bs <? 8)%nat then 0 else to_signed 64 (Uint64 order bs).

End binary.

(** ** The decoder *)

Record EncoderData : Type := mkEncoderData {
  byteOrder : ByteOrder;
  maxFrameLength : Z;
  lengthFieldOffset : Z;
  lengthFieldLength : Z;
  lengthFieldEndOffset : Z;
  lengthAdjustment : Z;
  initialBytesToStrip : Z;
  failFast : bool;
  discardingTooLongFrame : bool;
  tooLongFrameLength : Z;
  bytesToDiscard : Z;
  in_ : Buffer.t
}.

Definition set_discardingTooLongFrame (v : bool) (d : EncoderData) : EncoderData :=
  mkEncoderData (byteOrder d) (maxFrameLength d) (lengthFieldOffset d)
    (lengthFieldLength d) (lengthFieldEndOffset d) (lengthAdjustment d)
    (initialBytesToStrip d) (failFast d) v (tooLongFrameLength d)
    (bytesToDiscard d) (in_ d).

Definition set_tooLongFrameLength (v : Z) (d : EncoderData) : EncoderData :=
  mkEncoderData (byteOrder d) (maxFrameLength d) (lengthFieldOffset d)
    (lengthFieldLength d) (lengthFieldEndOffset d) (lengthAdjustment d)
    (initialBytesToStrip d) (failFast d) (discardingTooLongFrame d) v
    (bytesToDiscard d) (in_ d).

Definition set_bytesToDiscard (v : Z) (d : EncoderData) : EncoderData :=
  mkEncoderData (byteOrder d) (maxFrameLength d) (lengthFieldOffset d)
    (lengthFieldLength d) (lengthFieldEndOffset d) (lengthAdjustment d)
    (initialBytesToStrip d) (failFast d) (discardingTooLongFrame d)
    (tooLongFrameLength d) v (in_ d).

Definition set_in (v : Buffer.t) (d : EncoderData) : EncoderData :=
  mkEncoderData (byteOrder d) (maxFrameLength d) (lengthFieldOffset d)
    (lengthFieldLength d) (lengthFieldEndOffset d) (lengthAdjustment d)
    (initialBytesToStrip d) (failFast d) (discardingTooLongFrame d)
    (tooLongFrameLength d) (bytesToDiscard d) v.

Definition set_failFast (v : bool) (d : EncoderData) : EncoderData :=
  mkEncoderData (byteOrder d) (maxFrameLength d) (lengthFieldOffset d)
    (lengthFieldLength d) (lengthFieldEndOffset d) (lengthAdjustment d)
    (initialBytesToStrip d) v (discardingTooLongFrame d)
    (tooLongFrameLength d) (bytesToDiscard d) (in_ d).

Definition NewLengthFieldFrameDecoder
    (maxFrameLength lengthFieldOffset lengthFieldLength
     lengthAdjustment initialBytesToStrip : Z) : EncoderData :=
  mkEncoderData BigEndian maxFrameLength lengthFieldOffset lengthFieldLength
    (wrap64 (lengthFieldOffset + lengthFieldLength))
    lengthAdjustment initialBytesToStrip
    false false 0 0 Buffer.NewBuffer.

(** ** Panics, and the monad of the methods *)

Inductive panic : Type :=
| SliceBounds                       (* runtime: slice bounds out of range *)
| MakeSliceLen                      (* runtime: makeslice: len out of range *)
| UnsupportedLengthFieldLength (lengthFieldLength : Z)
| NegativeLengthField (frameLength : Z)
| FrameLengthLessThanInitialBytesToStrip (frameLength initialBytesToStrip : Z).

Inductive outcome (A : Type) : Type :=
| Ret (a : A)
| Panics (p : panic).
Arguments Ret {A} a.
Arguments Panics {A} p.

(** A method of [*EncoderData]: it runs from a state of the receiver to a
    result or a panic, and the state it leaves. *)
Definition M (A : Type) : Type := EncoderData -> outcome A * EncoderData.

Definition ret {A} (a : A) : M A := fun this => (Ret a, this).

Definition bind {A B} (c : M A) (k : A -> M B) : M B :=
  fun this =>
    match c this with
    | (Ret a, this') => k a this'
    | (Panics p, this') => (Panics p, this')
    end.

Definition get : M EncoderData := fun this => (Ret this, this).
Definition modify (f : EncoderData -> EncoderData) : M unit :=
  fun this => (Ret tt, f this).
Definition raise {A} (p : panic) : M A := fun this => (Panics p, this).

Declare Scope method_scope.
Delimit Scope method_scope with method.
Notation "x <- c ;; k" := (bind c (fun x => k))
  (at level 61, c at next level, right associativity) : method_scope.
Notation "c ;; k" := (bind c (fun _ => k))
  (at level 61, right associativity) : method_scope.
Local Open Scope method_scope.

(** [this.in.Next(n)], the returned slice dropped. *)
Definition in_Next (n : Z) : M unit :=
  fun this =>
    match Buffer.Next n (in_ this) with
    | Some b => (Ret tt, set_in b this)
    | None => (Panics SliceBounds, this)
    end.

(** [make([]byte, n)] *)
Definition make_bytes (n : Z) : M (list byte) :=
  if n <? 0 then raise MakeSliceLen else ret (repeat x00 (Z.to_nat n)).

(** [this.in.Read(buff)] *)
Definition in_Read (buff : list byte) : M (list byte) :=
  fun this =>
    let (p, b) := Buffer.Read buff (in_ this) in (Ret p, set_in b this).

(** [fail]: its body is commented out in the source. *)
Definition fail (frameLength : Z) : M unit := ret tt.

Definition failIfNecessary (firstDetectionOfTooLongFrame : bool) : M unit :=
  this <- get ;;
  if bytesToDiscard this =? 0 then
    let tooLongFrameLength := tooLongFrameLength this in
    modify (set_tooLongFrameLength 0) ;;
    modify (set_discardingTooLongFrame false) ;;
    if negb (failFast this) || firstDetectionOfTooLongFrame
    then fail tooLongFrameLength
    else ret tt
  else
    if failFast this && firstDetectionOfTooLongFrame
    then fail (tooLongFrameLength this)
    else ret tt.

(** [buffer] is [this.in] at the only call.  The minimum is computed (and
    printed) and then overwritten by the constant 2, as in the source. *)
Definition discardingTooLongFrameFunc : M unit :=
  this <- get ;;
  let bytesToDiscard := bytesToDiscard this in
  let localBytesToDiscard := Z.min bytesToDiscard (Buffer.Len (in_ this)) in
  let localBytesToDiscard := 2 in
  in_Next localBytesToDiscard ;;
  let bytesToDiscard := wrap64 (bytesToDiscard - localBytesToDiscard) in
  modify (set_bytesToDiscard bytesToDiscard) ;;
  failIfNecessary false.

Definition getUnadjustedFrameLength (this : EncoderData) (buf : Buffer.t)
    (offset length : Z) (order : ByteOrder) : outcome Z :=
  let arr := Buffer.Bytes buf in
  match Buffer.reslice arr offset (wrap64 (offset + length)) with
  | None => Panics SliceBounds
  | Some arr =>
      let buffer := Buffer.elems arr in
      if length =? 1 then Ret (binary.Read_uint8 buffer)
      else if length =? 2 then Ret (binary.Read_int16 order buffer)
      else if length =? 3 then
        match order with
        | LittleEndian =>
            Ret (Z.lor (Z.lor (u8 (Buffer.index arr 0))
                              (Z.shiftl (u8 (Buffer.index arr 1)) 8))
                       (Z.shiftl (u8 (Buffer.index arr 2)) 16))
        | BigEndian =>
            Ret (Z.lor (Z.lor (u8 (Buffer.index arr 2))
                              (Z.shiftl (u8 (Buffer.index arr 1)) 8))
                       (Z.shiftl (u8 (Buffer.index arr 0)) 16))
        end
      else if length =? 4 then Ret (binary.Read_int32 order buffer)
      else if length =? 8 then Ret (binary.Read_int64 order buffer)
      else Panics (UnsupportedLengthFieldLength (lengthFieldLength this))
  end.

Definition failOnNegativeLengthField (frameLength lengthFieldEndOffset : Z) : M unit :=
  in_Next lengthFieldEndOffset ;;
  raise (NegativeLengthField frameLength).

Definition exceededFrameLength (frameLength : Z) : M unit :=
  this <- get ;;
  let discard := wrap64 (frameLength - Buffer.Len (in_ this)) in
  modify (set_tooLongFrameLength frameLength) ;;
  (if discard <? 0 then
     in_Next frameLength
   else
     modify (set_discardingTooLongFrame true) ;;
     modify (set_bytesToDiscard discard) ;;
     this <- get ;;
     in_Next (Buffer.Len (in_ this))) ;;
  failIfNecessary true.

Definition failOnFrameLengthLessThanInitialBytesToStrip
    (frameLength initialBytesToStrip : Z) : M unit :=
  in_Next frameLength ;;
  raise (FrameLengthLessThanInitialBytesToStrip frameLength initialBytesToStrip).

(** [decode]: [None] is the [nil] return, [Some buff] a frame (possibly an
    empty, non-nil slice). *)
Definition decode : M (option (list byte)) :=
  this <- get ;;
  (if discardingTooLongFrame this then discardingTooLongFrameFunc else ret tt) ;;
  this <- get ;;
  if Buffer.Len (in_ this) <? lengthFieldOffset this then ret None
  else
    let actualLengthFieldOffset := lengthFieldOffset this in
    frameLength <-
      (fun s => (getUnadjustedFrameLength s (in_ s) actualLengthFieldOffset
                   (lengthFieldLength this) (byteOrder this), s)) ;;
    (if frameLength <? 0
     then failOnNegativeLengthField frameLength (lengthFieldEndOffset this)
     else ret tt) ;;
    let frameLength :=
      wrap64 (frameLength
              + wrap64 (lengthAdjustment this + lengthFieldEndOffset this)) in
    if frameLength >? maxFrameLength this then
      exceededFrameLength frameLength ;;
      ret None
    else
      let frameLengthInt := frameLength in
      if Buffer.Len (in_ this) <? frameLengthInt then ret None
      else
        (if initialBytesToStrip this >? frameLengthInt
         then failOnFrameLengthLessThanInitialBytesToStrip
                frameLength (initialBytesToStrip this)
         else ret tt) ;;
        in_Next (initialBytesToStrip this) ;;
        let actualFrameLength := wrap64 (frameLengthInt - initialBytesToStrip this) in
        buff <- make_bytes actualFrameLength ;;
        buff <- in_Read buff ;;
        ret (Some buff).

(** The loop of [Decode].  It has no bound in the source; [fuel] bounds the
    number of calls of [decode], and [None] says the bound was reached with
    the loop still running. *)
Fixpoint Decode_loop (fuel : nat) (resp : list (list byte)) (this : EncoderData)
    : option (outcome (list (list byte)) * EncoderData) :=
  match fuel with
  | O => None
  | S fuel =>
      match decode this with
      | (Ret (Some arr), this') => Decode_loop fuel (resp ++ [arr]) this'
      | (Ret None, this') => Some (Ret resp, this')
      | (Panics p, this') => Some (Panics p, this')
      end
  end.

Definition Decode (fuel : nat) (buff : list byte) (lay : Buffer.Layout)
    (this : EncoderData) : option (outcome (list (list byte)) * EncoderData) :=
  let this := set_in (Buffer.Write buff lay (in_ this)) this in
  Decode_loop fuel [] this.

(** Feeding chunk after chunk, each with the layout its write leaves; the
    lists returned are concatenated.  It stops at the first panic. *)
Fixpoint feed_all (fuel : nat) (chunks : list (list byte * Buffer.Layout))
    (acc : list (list byte)) (this : EncoderData)
    : option (outcome (list (list byte)) * EncoderData) :=
  match chunks with
  | [] => Some (Ret acc, this)
  | (buff, lay) :: chunks =>
      match Decode fuel buff lay this with
      | None => None
      | Some (Ret resp, this') => feed_all fuel chunks (acc ++ resp) this'
      | Some (Panics p, this') => Some (Panics p, this')
      end
  end.

(** ** Notions used by the statements *)

(** The state in which [decode] reaches its length-field check: the one
    left by the discard pre-check when the step begins in discarding mode,
    the entry state otherwise. *)
Definition after_precheck (this : EncoderData) : EncoderData :=
  if discardingTooLongFrame this
  then snd (discardingTooLongFrameFunc this)
  else this.

(** The frame length [decode] computes from a raw length-field value. *)
Definition adjustedFrameLength (this : EncoderData) (raw : Z) : Z :=
  wrap64 (raw + wrap64 (lengthAdjustment this + lengthFieldEndOffset this)).

(** The raw value [decode] reads in state [this]. *)
Definition rawLength (this : EncoderData) : outcome Z :=
  getUnadjustedFrameLength this (in_ this) (lengthFieldOffset this)
    (lengthFieldLength this) (byteOrder this).

(** The value of a length field as the specification words it: the bytes
    composed in the configured order, and the reading of a [w]-bit pattern
    as a signed two's-complement integer. *)
Definition unsigned_value (order : ByteOrder) (field : list byte) : Z :=
  match order with
  | BigEndian => fold_left (fun acc b => acc * 256 + u8 b) field 0
  | LittleEndian => fold_right (fun b acc => u8 b + 256 * acc) 0 field
  end.

Definition twos_complement (w u : Z) : Z :=
  if Z.testbit u (w - 1) then u - 2 ^ w else u.

(** The configuration of a decoder, and the methods that leave it alone:
    no run of such a method, returning or panicking, changes a
    configuration field. *)
Definition config (d : EncoderData) :=
  (byteOrder d, maxFrameLength d, lengthFieldOffset d, lengthFieldLength d,
   lengthFieldEndOffset d, lengthAdjustment d, initialBytesToStrip d, failFast d).

Definition keeps_config {A} (c : M A) : Prop :=
  forall this, config (snd (c this)) = config this.

(** A method that never panics with the negative-length-field message. *)
Definition spares_negative {A} (c : M A) : Prop :=
  forall this n, fst (c this) <> Panics (NegativeLengthField n).

(** ** Sample data: the frames of the source's header comment *)

Definition HELLO_WORLD : list byte := list_byte_of_string "HELLO, WORLD".

(** "2 bytes length field at offset 0, do not strip header" and "strip
    header": [0x000C "HELLO, WORLD"]. *)
Definition doc_plain : EncoderData := NewLengthFieldFrameDecoder 1024 0 2 0 0.
Definition doc_strip : EncoderData := NewLengthFieldFrameDecoder 1024 0 2 0 2.
Definition hello_frame : list byte := [x00; x0c] ++ HELLO_WORLD.

(** "the length field represents the length of the whole message":
    [lengthAdjustment = -2]. *)
Definition doc_whole : EncoderData := NewLengthFieldFrameDecoder 1024 0 2 (-2) 0.

(** "2 bytes length field at offset 1 in the middle of 4 bytes header, strip
    the first header field and the length field, the length field represents
    the length of the whole message": [0xCA 0x0010 0xFE "HELLO, WORLD"]. *)
Definition doc_middle : EncoderData := NewLengthFieldFrameDecoder 1024 1 2 (-3) 3.
Definition middle_frame : list byte := [xca; x00; x10; xfe] ++ HELLO_WORLD.
Definition middle_payload : list byte := xfe :: HELLO_WORLD.

(** A decoder with a one-byte length field after a one-byte header and
    frames of at most 8 bytes; an oversized frame of 12 bytes cut after its
    fourth byte, followed by a well-formed frame. *)
Definition tiny : EncoderData := NewLengthFieldFrameDecoder 8 1 1 0 0.
Definition oversized_head : list byte := [xaa; x0a; x01; x01].
Definition oversized_tail : list byte := [x01; x01; x01; x01; x01; x01; x01; x01].
Definition good_frame : list byte := [xbb; x02; x41; x42].

(** A decoder in discarding mode: 5 bytes still to drop, 8 bytes buffered. *)
Definition discarding_five : EncoderData :=
  set_in (Buffer.mk [] [x01; x02; x03; x04; x05; x06; x07; x08] [])
    (set_bytesToDiscard 5
       (set_tooLongFrameLength 12 (set_discardingTooLongFrame true tiny))).

(** [tiny] with [failFast] set, holding the first three bytes of a 12-byte
    frame. *)
Definition too_long_failfast : EncoderData :=
  set_in (Buffer.mk [] [xaa; x0a; x01] []) (set_failFast true tiny).

(** [tiny] without [failFast], in discarding mode, holding the last two
    bytes of the frame being discarded. *)
Definition discard_completes : EncoderData :=
  set_in (Buffer.mk [] [x01; x01] [])
    (set_bytesToDiscard 2
       (set_tooLongFrameLength 12 (set_discardingTooLongFrame true tiny))).

(** The first ten bytes of a 12-byte frame for [tiny], and its last two. *)
Definition oversized_ten : list byte := [xaa; x0a] ++ repeat x01 8.
Definition oversized_last : list byte := [x01; x01].


(** [doc_plain] holding a length field with its top bit set. *)
Definition negative_field : EncoderData :=
  set_in (Buffer.mk [] [x80; x00; x41] []) doc_plain.


(** The most significant byte of a length field. *)
Definition most_significant (order : ByteOrder) (field : list byte) : byte :=
  match order with
  | BigEndian => hd x00 field
  | LittleEndian => last field x00
  end.

(** ** Notions used by the further properties *)

(** The conditions under which [decode], reaching its length-field check in
    state [s], extracts a frame: the field is read, the raw length is not
    negative, the frame length is within [maxFrameLength] and within the
    buffered bytes, and [initialBytesToStrip] is within the frame length. *)
Definition extracts (s : EncoderData) (raw : Z) : Prop :=
  lengthFieldOffset s <= Buffer.Len (in_ s)
  /\ rawLength s = Ret raw
  /\ 0 <= raw
  /\ adjustedFrameLength s raw <= maxFrameLength s
  /\ adjustedFrameLength s raw <= Buffer.Len (in_ s)
  /\ 0 <= initialBytesToStrip s <= adjustedFrameLength s raw.

(** A method only takes bytes off the front of the buffer: what is left
    buffered after any run of it is a suffix of what was buffered, and
    while bytes are left the array behind them is the one it was. *)
Definition drops_front {A} (c : M A) : Prop :=
  forall this, exists k,
    Buffer.unread (in_ (snd (c this))) = skipn k (Buffer.unread (in_ this))
    /\ (Buffer.unread (in_ (snd (c this))) <> [] ->
        Buffer.after (in_ (snd (c this))) = Buffer.after (in_ this)).

(** [f] is one whole frame for the decoder [d]: read at the head of a
    buffer, its length field (which lies within [f]) gives a non-negative
    raw value and a frame length that is the length of [f], within
    [maxFrameLength], and [initialBytesToStrip] is within it. *)
Definition whole_frame (d : EncoderData) (f : list byte) : bool :=
  (0 <=? lengthFieldOffset d) && (0 <=? lengthFieldLength d)
  && (lengthFieldOffset d + lengthFieldLength d <=? Z.of_nat (length f))
  && (lengthFieldOffset d + lengthFieldLength d <? 2 ^ 63)
  && (Z.of_nat (length f) <=? maxFrameLength d)
  && (0 <=? initialBytesToStrip d)
  && (initialBytesToStrip d <=? Z.of_nat (length f))
  && match rawLength (set_in (Buffer.mk [] f []) d) with
     | Ret raw => (0 <=? raw) && (adjustedFrameLength d raw =? Z.of_nat (length f))
     | Panics _ => false
     end.

(** The payload [decode] returns for the whole frame [f]. *)
Definition payload_of (d : EncoderData) (f : list byte) : list byte :=
  skipn (Z.to_nat (initialBytesToStrip d)) f.

(** [rest] makes the decoder [d] wait: it is shorter than
    [lengthFieldOffset], or it holds a whole length field that announces a
    frame, within [maxFrameLength], longer than [rest]. *)
Definition incomplete (d : EncoderData) (rest : list byte) : bool :=
  (Z.of_nat (length rest) <? lengthFieldOffset d)
  || ((0 <=? lengthFieldOffset d) && (0 <=? lengthFieldLength d)
      && (lengthFieldOffset d + lengthFieldLength d <=? Z.of_nat (length rest))
      && (lengthFieldOffset d + lengthFieldLength d <? 2 ^ 63)
      && match rawLength (set_in (Buffer.mk [] rest []) d) with
         | Ret raw =>
             (0 <=? raw)
             && (adjustedFrameLength d raw <=? maxFrameLength d)
             && (Z.of_nat (length rest) <? adjustedFrameLength d raw)
         | Panics _ => false
         end).

(** The widths [getUnadjustedFrameLength] reads. *)
Definition supported_width (n : Z) : bool :=
  (n =? 1) || (n =? 2) || (n =? 3) || (n =? 4) || (n =? 8).

(** A configuration under which every extracted frame takes at least one
    byte off the buffer: bytes are stripped, or the frame length is the raw
    length plus a positive constant. *)
Definition progresses (d : EncoderData) : bool :=
  (0 <? initialBytesToStrip d)
  || ((0 <? lengthAdjustment d + lengthFieldEndOffset d)
      && (lengthAdjustment d + lengthFieldEndOffset d <? 2 ^ 62)).

(** * Properties *)

Example hello_len : length HELLO_WORLD = 12%nat.
Proof. reflexivity. Qed.

Example decode_doc_plain :
  fst (decode (set_in (Buffer.mk [] hello_frame []) doc_plain))
  = Ret (Some hello_frame).
Proof. vm_compute. reflexivity. Qed.

(** ** Arithmetic of bytes and machine integers *)

Lemma u8_range b : 0 <= u8 b < 256.
Proof. unfold u8. pose proof (Byte.to_N_bounded b). lia. Qed.

Lemma wrap64_small z : - 2^63 <= z < 2^63 -> wrap64 z = z.
Proof. intros H. unfold wrap64. rewrite Z.mod_small; lia. Qed.

Lemma wrap64_range z : - 2^63 <= wrap64 z < 2^63.
Proof. unfold wrap64. pose proof (Z.mod_pos_bound (z + 2^63) (2^64) ltac:(lia)). lia. Qed.

Lemma lor_shiftl_add a b n :
  0 <= n -> 0 <= a < 2 ^ n -> Z.lor a (Z.shiftl b n) = a + b * 2 ^ n.
Proof.
  intros Hn Ha.
  rewrite Z.shiftl_mul_pow2 by assumption.
  rewrite <- Z.lxor_lor, <- Z.add_nocarry_lxor; try reflexivity.
  all: apply Z.bits_inj'; intros i Hi; rewrite Z.land_spec, Z.bits_0.
  all: destruct (Z.lt_ge_cases i n) as [Hlt | Hge].
  all: try (rewrite (Z.mul_pow2_bits_low b n i) by lia; apply andb_false_r).
  all: destruct (Z.eq_dec a 0) as [-> | Hnz]; [ rewrite Z.bits_0; reflexivity | ].
  all: rewrite (Z.bits_above_log2 a i); [ reflexivity | lia | ].
  all: apply Z.log2_lt_pow2; try lia.
  all: apply Z.lt_le_trans with (2 ^ n); [ lia | apply Z.pow_le_mono_r; lia ].
Qed.

Lemma testbit_top w u :
  0 < w -> 0 <= u < 2 ^ w -> Z.testbit u (w - 1) = (2 ^ (w - 1) <=? u).
Proof.
  intros Hw Hu.
  assert (Hp : 2 ^ w = 2 * 2 ^ (w - 1)).
  { rewrite <- Z.pow_succ_r by lia. f_equal. lia. }
  assert (Hpos : 0 < 2 ^ (w - 1)) by (apply Z.pow_pos_nonneg; lia).
  destruct (Z.leb_spec (2 ^ (w - 1)) u) as [Hge | Hlt].
  - apply Z.testbit_true; [ lia | ].
    assert (Hq : u / 2 ^ (w - 1) = 1).
    { symmetry. apply Z.div_unique with (u - 2 ^ (w - 1)); lia. }
    rewrite Hq. reflexivity.
  - apply Z.testbit_false; [ lia | ].
    rewrite Z.div_small by lia. reflexivity.
Qed.

Lemma to_signed_twos_complement w u :
  0 < w -> 0 <= u < 2 ^ w -> to_signed w u = twos_complement w u.
Proof.
  intros Hw Hu. unfold to_signed, twos_complement.
  rewrite testbit_top by assumption.
  assert (Hp : 2 ^ w = 2 * 2 ^ (w - 1)).
  { rewrite <- Z.pow_succ_r by lia. f_equal. lia. }
  assert (Hpos : 0 < 2 ^ (w - 1)) by (apply Z.pow_pos_nonneg; lia).
  destruct (Z.leb_spec (2 ^ (w - 1)) u) as [Hge | Hlt].
  - replace (u + 2 ^ (w - 1)) with ((u - 2 ^ (w - 1)) + 1 * 2 ^ w) by lia.
    rewrite Z_mod_plus_full, Z.mod_small; lia.
  - rewrite Z.mod_small; lia.
Qed.

Lemma u8_msb b : Z.testbit (u8 b) 7 = (128 <=? u8 b).
Proof. destruct b; reflexivity. Qed.

Ltac bytes_in_range :=
  repeat match goal with
         | |- context [u8 ?b] =>
             lazymatch goal with
             | _ : 0 <= u8 b < 256 |- _ => fail
             | _ => pose proof (u8_range b)
             end
         end.

Ltac lor_to_sum :=
  repeat match goal with
         | |- context [Z.lor ?a (Z.shiftl ?b ?n)] =>
             rewrite (lor_shiftl_add a b n) by lia
         end.

Lemma Uint16_value order b0 b1 :
  binary.Uint16 order [b0; b1] = unsigned_value order [b0; b1]
  /\ 0 <= unsigned_value order [b0; b1] < 2 ^ 16.
Proof.
  destruct order; unfold binary.Uint16, binary.nthb, unsigned_value;
    cbn [nth fold_left fold_right];
    bytes_in_range; lor_to_sum; lia.
Qed.

Lemma Uint32_value order b0 b1 b2 b3 :
  binary.Uint32 order [b0; b1; b2; b3] = unsigned_value order [b0; b1; b2; b3]
  /\ 0 <= unsigned_value order [b0; b1; b2; b3] < 2 ^ 32.
Proof.
  destruct order; unfold binary.Uint32, binary.nthb, unsigned_value;
    cbn [nth fold_left fold_right];
    bytes_in_range; lor_to_sum; lia.
Qed.

Lemma Uint64_value order b0 b1 b2 b3 b4 b5 b6 b7 :
  binary.Uint64 order [b0; b1; b2; b3; b4; b5; b6; b7]
  = unsigned_value order [b0; b1; b2; b3; b4; b5; b6; b7]
  /\ 0 <= unsigned_value order [b0; b1; b2; b3; b4; b5; b6; b7] < 2 ^ 64.
Proof.
  destruct order; unfold binary.Uint64, binary.nthb, unsigned_value;
    cbn [nth fold_left fold_right];
    bytes_in_range; lor_to_sum; lia.
Qed.

Lemma twos_complement_negative w u :
  0 < w -> 0 <= u < 2 ^ w ->
  (twos_complement w u < 0 <-> 2 ^ (w - 1) <= u).
Proof.
  intros Hw Hu. unfold twos_complement. rewrite testbit_top by assumption.
  destruct (Z.leb_spec (2 ^ (w - 1)) u); lia.
Qed.

Ltac msb_sign :=
  intros order; intros;
  rewrite twos_complement_negative by
    (try lia; destruct order; unfold unsigned_value; cbn [fold_left fold_right];
     bytes_in_range; lia);
  rewrite u8_msb;
  destruct order; unfold unsigned_value, most_significant;
  cbn [fold_left fold_right hd last];
  match goal with
  | |- context [128 <=? ?x] => destruct (Z.leb_spec 128 x)
  end;
  bytes_in_range; split; intros; try reflexivity; try discriminate; lia.

Lemma msb_sign16 order b0 b1 :
  twos_complement 16 (unsigned_value order [b0; b1]) < 0
  <-> Z.testbit (u8 (most_significant order [b0; b1])) 7 = true.
Proof. revert order. msb_sign. Qed.

Lemma msb_sign32 order b0 b1 b2 b3 :
  twos_complement 32 (unsigned_value order [b0; b1; b2; b3]) < 0
  <-> Z.testbit (u8 (most_significant order [b0; b1; b2; b3])) 7 = true.
Proof. revert order. msb_sign. Qed.

Lemma msb_sign64 order b0 b1 b2 b3 b4 b5 b6 b7 :
  twos_complement 64 (unsigned_value order [b0; b1; b2; b3; b4; b5; b6; b7]) < 0
  <-> Z.testbit (u8 (most_significant order [b0; b1; b2; b3; b4; b5; b6; b7])) 7
      = true.
Proof. revert order. msb_sign. Qed.

Lemma unsigned_value_one order b0 :
  binary.Read_uint8 [b0] = unsigned_value order [b0]
  /\ 0 <= unsigned_value order [b0].
Proof.
  destruct order; unfold binary.Read_uint8, binary.nthb, unsigned_value;
    cbn [length Nat.ltb Nat.leb nth fold_left fold_right];
    bytes_in_range; lia.
Qed.

Lemma unsigned_value_three order b0 b1 b2 :
  match order with
  | LittleEndian =>
      Ret (Z.lor (Z.lor (binary.nthb [b0; b1; b2] 0)
                        (Z.shiftl (binary.nthb [b0; b1; b2] 1) 8))
                 (Z.shiftl (binary.nthb [b0; b1; b2] 2) 16))
  | BigEndian =>
      Ret (Z.lor (Z.lor (binary.nthb [b0; b1; b2] 2)
                        (Z.shiftl (binary.nthb [b0; b1; b2] 1) 8))
                 (Z.shiftl (binary.nthb [b0; b1; b2] 0) 16))
  end = Ret (unsigned_value order [b0; b1; b2])
  /\ 0 <= unsigned_value order [b0; b1; b2] < 2 ^ 24.
Proof.
  destruct order; unfold binary.nthb, unsigned_value;
    cbn [nth fold_left fold_right];
    bytes_in_range; lor_to_sum; split; try lia; f_equal; lia.
Qed.

(** ** Slices of the buffer *)

Lemma reslice_prefix (u af pre rest : list byte) lo hi :
  u ++ af = pre ++ rest ->
  0 <= lo <= hi -> hi <= Z.of_nat (length pre) ->
  exists r,
    Buffer.reslice (Buffer.mkslice u af) lo hi
    = Some (Buffer.mkslice
              (firstn (Z.to_nat (hi - lo)) (skipn (Z.to_nat lo) pre)) r).
Proof.
  intros Heq Hlo Hhi. unfold Buffer.reslice. cbn [Buffer.elems Buffer.room].
  rewrite Heq, length_app.
  destruct (Z.leb_spec 0 lo); [ | lia ].
  destruct (Z.leb_spec lo hi); [ | lia ].
  destruct (Z.leb_spec hi (Z.of_nat (length pre + length rest))); [ | lia ].
  cbn [andb]. eexists. do 2 f_equal.
  rewrite skipn_app, firstn_app, length_skipn.
  replace (Z.to_nat (hi - lo) - (length pre - Z.to_nat lo))%nat with 0%nat by lia.
  cbn [firstn]. apply app_nil_r.
Qed.

Lemma reslice_out_of_range (s : Buffer.slice) lo hi :
  Z.of_nat (length (Buffer.elems s ++ Buffer.room s)) < hi ->
  Buffer.reslice s lo hi = None.
Proof.
  intros H. unfold Buffer.reslice.
  destruct (Z.leb_spec hi (Z.of_nat (length (Buffer.elems s ++ Buffer.room s))));
    [ lia | ].
  rewrite andb_false_r. reflexivity.
Qed.

(** The raw value depends on the bytes up to the end of the length field
    only, wherever the read offset and the end of the array lie. *)
Lemma getUnadjustedFrameLength_prefix this bf u af pre rest off len order :
  u ++ af = pre ++ rest ->
  0 <= off -> 0 <= len -> off + len <= Z.of_nat (length pre) ->
  off + len < 2 ^ 63 ->
  getUnadjustedFrameLength this (Buffer.mk bf u af) off len order
  = getUnadjustedFrameLength this (Buffer.mk [] pre []) off len order.
Proof.
  intros Heq Hoff Hlen Hin Hfit.
  unfold getUnadjustedFrameLength, Buffer.Bytes.
  cbn [Buffer.unread Buffer.after].
  rewrite (wrap64_small (off + len)) by lia.
  destruct (reslice_prefix u af pre rest off (off + len) Heq) as [r1 ->]; try lia.
  destruct (reslice_prefix pre [] pre [] off (off + len) eq_refl) as [r2 ->]; try lia.
  unfold Buffer.index. cbn [Buffer.elems]. reflexivity.
Qed.

Lemma reslice_field (pre field post af : list byte) :
  exists r,
    Buffer.reslice (Buffer.mkslice (pre ++ field ++ post) af)
      (Z.of_nat (length pre)) (Z.of_nat (length pre) + Z.of_nat (length field))
    = Some (Buffer.mkslice field r).
Proof.
  destruct (reslice_prefix (pre ++ field ++ post) af (pre ++ field) (post ++ af)
              (Z.of_nat (length pre))
              (Z.of_nat (length pre) + Z.of_nat (length field))) as [r Hr].
  - rewrite <- !app_assoc. reflexivity.
  - lia.
  - rewrite length_app. lia.
  - exists r. rewrite Hr. do 2 f_equal.
    rewrite Nat2Z.id, skipn_app, skipn_all, Nat.sub_diag.
    cbn [skipn app].
    replace (Z.to_nat (Z.of_nat (length pre) + Z.of_nat (length field) - Z.of_nat (length pre)))
      with (length field) by lia.
    apply firstn_all.
Qed.

(** The switch of [getUnadjustedFrameLength], on a length field [field]
    that lies in the buffer after [pre]. *)
Lemma getUnadjustedFrameLength_field this bf pre field post af order :
  Z.of_nat (length pre) + Z.of_nat (length field) < 2 ^ 63 ->
  let len := Z.of_nat (length field) in
  getUnadjustedFrameLength this (Buffer.mk bf (pre ++ field ++ post) af)
    (Z.of_nat (length pre)) len order
  = if len =? 1 then Ret (binary.Read_uint8 field)
    else if len =? 2 then Ret (binary.Read_int16 order field)
    else if len =? 3 then
      match order with
      | LittleEndian =>
          Ret (Z.lor (Z.lor (binary.nthb field 0) (Z.shiftl (binary.nthb field 1) 8))
                     (Z.shiftl (binary.nthb field 2) 16))
      | BigEndian =>
          Ret (Z.lor (Z.lor (binary.nthb field 2) (Z.shiftl (binary.nthb field 1) 8))
                     (Z.shiftl (binary.nthb field 0) 16))
      end
    else if len =? 4 then Ret (binary.Read_int32 order field)
    else if len =? 8 then Ret (binary.Read_int64 order field)
    else Panics (UnsupportedLengthFieldLength (lengthFieldLength this)).
Proof.
  intros Hfit len. subst len. unfold getUnadjustedFrameLength, Buffer.Bytes.
  cbn [Buffer.unread Buffer.after].
  rewrite wrap64_small by lia.
  destruct (reslice_field pre field post af) as [r ->].
  reflexivity.
Qed.

(** ** The methods, one equation each *)

Lemma firstn_all_Z {A} (l : list A) n :
  Z.of_nat (length l) <= n -> firstn (Z.to_nat n) l = l.
Proof. intros H. apply firstn_all2. lia. Qed.

Lemma skipn_all_Z {A} (l : list A) n :
  Z.of_nat (length l) <= n -> skipn (Z.to_nat n) l = [].
Proof. intros H. apply skipn_all2. lia. Qed.

Lemma Next_eq n b :
  0 <= n ->
  Buffer.Next n b
  = Some (Buffer.mk (Buffer.before b ++ firstn (Z.to_nat n) (Buffer.unread b))
                    (skipn (Z.to_nat n) (Buffer.unread b))
                    (Buffer.after b)).
Proof.
  intros Hn. unfold Buffer.Next, Buffer.Len.
  destruct (Z.ltb_spec n 0) as [? | _]; [ lia | ].
  destruct (Z.gtb_spec n (Z.of_nat (length (Buffer.unread b)))) as [Hgt | Hle];
    [ | reflexivity ].
  rewrite Nat2Z.id, firstn_all, skipn_all.
  rewrite firstn_all_Z, skipn_all_Z by lia. reflexivity.
Qed.

Lemma in_Next_eq n this :
  0 <= n ->
  in_Next n this
  = (Ret tt,
     set_in (Buffer.mk
               (Buffer.before (in_ this) ++ firstn (Z.to_nat n) (Buffer.unread (in_ this)))
               (skipn (Z.to_nat n) (Buffer.unread (in_ this)))
               (Buffer.after (in_ this))) this).
Proof. intros Hn. unfold in_Next. rewrite Next_eq by assumption. reflexivity. Qed.

Lemma failIfNecessary_eq first this :
  failIfNecessary first this
  = (Ret tt,
     if bytesToDiscard this =? 0
     then set_discardingTooLongFrame false (set_tooLongFrameLength 0 this)
     else this).
Proof.
  unfold failIfNecessary, bind, get, modify, fail, ret.
  destruct (bytesToDiscard this =? 0).
  - destruct (negb (failFast this) || first); reflexivity.
  - destruct (failFast this && first); reflexivity.
Qed.

Lemma discardingTooLongFrameFunc_eq this :
  discardingTooLongFrameFunc this
  = (Ret tt,
     let s := set_bytesToDiscard (wrap64 (bytesToDiscard this - 2))
                (set_in (Buffer.mk
                           (Buffer.before (in_ this) ++ firstn 2 (Buffer.unread (in_ this)))
                           (skipn 2 (Buffer.unread (in_ this)))
                           (Buffer.after (in_ this))) this) in
     if bytesToDiscard s =? 0
     then set_discardingTooLongFrame false (set_tooLongFrameLength 0 s)
     else s).
Proof.
  unfold discardingTooLongFrameFunc.
  unfold bind at 1. unfold get at 1.
  unfold bind at 1. rewrite in_Next_eq by lia.
  unfold bind at 1. unfold modify at 1.
  rewrite failIfNecessary_eq. reflexivity.
Qed.

Lemma decode_precheck this :
  decode this =
  (let s := after_precheck this in
   if Buffer.Len (in_ s) <? lengthFieldOffset s then (Ret None, s)
   else match rawLength s with
        | Panics p => (Panics p, s)
        | Ret raw =>
            ((if raw <? 0
              then failOnNegativeLengthField raw (lengthFieldEndOffset s)
              else ret tt) ;;
             let frameLength := adjustedFrameLength s raw in
             if frameLength >? maxFrameLength s then
               exceededFrameLength frameLength ;; ret None
             else
               if Buffer.Len (in_ s) <? frameLength then ret None
               else
                 (if initialBytesToStrip s >? frameLength
                  then failOnFrameLengthLessThanInitialBytesToStrip
                         frameLength (initialBytesToStrip s)
                  else ret tt) ;;
                 in_Next (initialBytesToStrip s) ;;
                 buff <- make_bytes (wrap64 (frameLength - initialBytesToStrip s)) ;;
                 buff <- in_Read buff ;;
                 ret (Some buff))%method s
        end).
Proof.
  unfold decode, after_precheck.
  unfold bind at 1. unfold get at 1.
  unfold bind at 1.
  destruct (discardingTooLongFrame this).
  - rewrite discardingTooLongFrameFunc_eq. cbv zeta.
    match goal with |- context [(Ret tt, ?x)] => generalize x end.
    intros s. cbn [snd]. unfold bind at 1. unfold get at 1.
    destruct (Buffer.Len (in_ s) <? lengthFieldOffset s); [ reflexivity | ].
    unfold bind at 1. fold (rawLength s). destruct (rawLength s); reflexivity.
  - unfold ret at 1. unfold bind at 1. unfold get at 1.
    destruct (Buffer.Len (in_ this) <? lengthFieldOffset this); [ reflexivity | ].
    unfold bind at 1. fold (rawLength this). destruct (rawLength this); reflexivity.
Qed.

Lemma after_precheck_normal this :
  discardingTooLongFrame this = false -> after_precheck this = this.
Proof. intros H. unfold after_precheck. rewrite H. reflexivity. Qed.

(** A successful read of the length field bounds its offsets. *)
Lemma rawLength_bounds this raw :
  rawLength this = Ret raw ->
  0 <= lengthFieldOffset this
  /\ lengthFieldOffset this
     <= wrap64 (lengthFieldOffset this + lengthFieldLength this).
Proof.
  unfold rawLength, getUnadjustedFrameLength, Buffer.reslice.
  destruct (Z.leb_spec 0 (lengthFieldOffset this));
    destruct (Z.leb_spec (lengthFieldOffset this)
                (wrap64 (lengthFieldOffset this + lengthFieldLength this)));
    cbn [andb]; try discriminate.
  intros _. split; assumption.
Qed.

Lemma length_skipn_Z {A} (l : list A) n :
  0 <= n <= Z.of_nat (length l) ->
  Z.of_nat (length (skipn (Z.to_nat n) l)) = Z.of_nat (length l) - n.
Proof. intros H. rewrite length_skipn. lia. Qed.

Lemma exceededFrameLength_ret frameLength this :
  0 <= frameLength ->
  fst (exceededFrameLength frameLength this) = Ret tt.
Proof.
  intros Hpos. unfold exceededFrameLength.
  unfold bind at 1. unfold get at 1.
  unfold bind at 1. unfold modify at 1.
  destruct (wrap64 (frameLength - Buffer.Len (in_ this)) <? 0).
  - unfold bind at 1. rewrite in_Next_eq by assumption.
    rewrite failIfNecessary_eq. reflexivity.
  - unfold bind at 1. unfold bind at 1. unfold modify at 1.
    unfold bind at 1. unfold modify at 1.
    unfold bind at 1. unfold get at 1.
    rewrite in_Next_eq by (unfold Buffer.Len; lia).
    rewrite failIfNecessary_eq. reflexivity.
Qed.

(** ** What a step does *)

(** Below [lengthFieldOffset] buffered bytes, outside discarding mode, the
    step waits and touches nothing. *)
Lemma decode_waits_below_lengthFieldOffset this :
  discardingTooLongFrame this = false ->
  Buffer.Len (in_ this) < lengthFieldOffset this ->
  decode this = (Ret None, this).
Proof.
  intros Hmode Hlt. rewrite decode_precheck. unfold after_precheck.
  rewrite Hmode. cbv zeta.
  destruct (Z.ltb_spec (Buffer.Len (in_ this)) (lengthFieldOffset this));
    [ reflexivity | lia ].
Qed.

(** The defect behind C1 and C4, in general: outside discarding mode,
    with at least [lengthFieldOffset] bytes buffered and an array that ends
    before the length field does, the step panics on the slice. *)
Lemma decode_panics_past_capacity this :
  discardingTooLongFrame this = false ->
  lengthFieldOffset this <= Buffer.Len (in_ this) ->
  Buffer.Len (in_ this) + Z.of_nat (length (Buffer.after (in_ this)))
  < wrap64 (lengthFieldOffset this + lengthFieldLength this) ->
  decode this = (Panics SliceBounds, this).
Proof.
  intros Hmode Hoff Hcap. rewrite decode_precheck.
  rewrite (after_precheck_normal this Hmode). cbv zeta.
  destruct (Z.ltb_spec (Buffer.Len (in_ this)) (lengthFieldOffset this)); [ lia | ].
  unfold rawLength, getUnadjustedFrameLength.
  rewrite reslice_out_of_range; [ reflexivity | ].
  unfold Buffer.Bytes. cbn [Buffer.elems Buffer.room].
  rewrite length_app. unfold Buffer.Len in Hcap. lia.
Qed.

Lemma Read_full (p : list byte) (b : Buffer.t) :
  (length p <= length (Buffer.unread b))%nat ->
  fst (Buffer.Read p b) = firstn (length p) (Buffer.unread b)
  /\ Buffer.unread (snd (Buffer.Read p b)) = skipn (length p) (Buffer.unread b).
Proof.
  intros Hle. unfold Buffer.Read.
  destruct (Buffer.unread b) as [| x u] eqn:Hu.
  - destruct p; [ | cbn in Hle; lia ]. split; reflexivity.
  - rewrite Nat.min_l by assumption. cbn [fst snd Buffer.unread].
    rewrite skipn_all, app_nil_r. split; reflexivity.
Qed.

(** The extraction itself: with a non-negative raw length, a frameLength
    within maxFrameLength and within the buffer, and initialBytesToStrip
    within frameLength, the step returns the frame without its first
    initialBytesToStrip bytes and takes frameLength bytes off the buffer. *)
Lemma decode_extracts_frame this raw :
  let s := after_precheck this in
  let frameLength := adjustedFrameLength s raw in
  let strip := initialBytesToStrip s in
  lengthFieldOffset s <= Buffer.Len (in_ s) ->
  rawLength s = Ret raw ->
  0 <= raw ->
  frameLength <= maxFrameLength s ->
  frameLength <= Buffer.Len (in_ s) ->
  0 <= strip <= frameLength ->
  exists this',
    decode this
    = (Ret (Some (firstn (Z.to_nat (frameLength - strip))
                    (skipn (Z.to_nat strip) (Buffer.unread (in_ s))))),
       this')
    /\ Buffer.unread (in_ this')
       = skipn (Z.to_nat frameLength) (Buffer.unread (in_ s)).
Proof.
  intros s frameLength strip Hoff Hraw Hnonneg Hmax Hlen Hstrip.
  assert (Hfl : - 2 ^ 63 <= frameLength < 2 ^ 63) by apply wrap64_range.
  rewrite decode_precheck. fold s. cbv zeta.
  destruct (Z.ltb_spec (Buffer.Len (in_ s)) (lengthFieldOffset s)); [ lia | ].
  rewrite Hraw.
  destruct (Z.ltb_spec raw 0) as [? | _]; [ lia | ].
  unfold bind at 1. unfold ret at 1. fold frameLength. fold strip.
  destruct (Z.gtb_spec frameLength (maxFrameLength s)) as [? | _]; [ lia | ].
  destruct (Z.ltb_spec (Buffer.Len (in_ s)) frameLength) as [? | _]; [ lia | ].
  destruct (Z.gtb_spec strip frameLength) as [? | _]; [ lia | ].
  unfold bind at 1. unfold ret at 1.
  unfold bind at 1. rewrite in_Next_eq by lia.
  rewrite wrap64_small by lia.
  unfold bind at 1. unfold make_bytes.
  destruct (Z.ltb_spec (frameLength - strip) 0) as [? | _]; [ lia | ].
  unfold ret at 1. unfold bind at 1. unfold in_Read.
  cbn [in_ set_in].
  match goal with
  | |- context [Buffer.Read ?p ?b] =>
      destruct (Read_full p b) as [Hp Hb];
      [ | destruct (Buffer.Read p b) as [p' b'] ]
  end.
  - cbn [Buffer.unread]. rewrite repeat_length, length_skipn.
    unfold Buffer.Len in Hlen. lia.
  - cbn [fst snd] in Hp, Hb. unfold ret.
    rewrite repeat_length in Hp, Hb. cbn [Buffer.unread] in Hp, Hb.
    eexists. split.
    + rewrite Hp. reflexivity.
    + cbn [in_ set_in]. rewrite Hb, skipn_skipn. f_equal. lia.
Qed.

(** ** Running [decode] on a given buffer *)

(** The raw value read in [this] is the one read from any prefix [pre] of
    the array — buffered bytes, then spare capacity — that holds the
    length field. *)
Lemma rawLength_prefix this pre rest :
  Buffer.unread (in_ this) ++ Buffer.after (in_ this) = pre ++ rest ->
  (0 <=? lengthFieldOffset this) && (0 <=? lengthFieldLength this)
  && (lengthFieldOffset this + lengthFieldLength this <=? Z.of_nat (length pre))
  && (lengthFieldOffset this + lengthFieldLength this <? 2 ^ 63) = true ->
  rawLength this
  = getUnadjustedFrameLength this (Buffer.mk [] pre [])
      (lengthFieldOffset this) (lengthFieldLength this) (byteOrder this).
Proof.
  intros Heq Hb. unfold rawLength.
  apply andb_prop in Hb. destruct Hb as [Hb H4].
  apply andb_prop in Hb. destruct Hb as [Hb H3].
  apply andb_prop in Hb. destruct Hb as [H1 H2].
  apply Z.leb_le in H1, H2, H3. apply Z.ltb_lt in H4.
  destruct (in_ this) as [bf u af]. cbn [Buffer.unread Buffer.after] in Heq.
  apply getUnadjustedFrameLength_prefix with (rest := rest); assumption.
Qed.

Lemma Decode_loop_S fuel resp this :
  Decode_loop (S fuel) resp this
  = match decode this with
    | (Ret (Some arr), this') => Decode_loop fuel (resp ++ [arr]) this'
    | (Ret None, this') => Some (Ret resp, this')
    | (Panics p, this') => Some (Panics p, this')
    end.
Proof. reflexivity. Qed.

(** One turn of the loop of [Decode] on a buffer whose array begins, from
    the read offset on, with [pre ++ rest], the length field lying in
    [pre]: the raw value is computed from [pre], then the step is run. *)
Ltac eval_raw pre rest :=
  rewrite decode_precheck; cbv zeta;
  rewrite (rawLength_prefix _ pre rest) by (vm_compute; reflexivity);
  match goal with
  | |- context [getUnadjustedFrameLength ?s ?b ?o ?l ?r] =>
      let v := eval vm_compute in (getUnadjustedFrameLength s b o l r) in
      change (getUnadjustedFrameLength s b o l r) with v
  end.

Ltac loop_step pre rest :=
  lazymatch goal with
  | |- Decode_loop (S ?n) ?resp ?s = _ =>
      let H := fresh "Hstep" in
      eassert (H : decode s = _)
        by (eval_raw pre rest; vm_compute; reflexivity);
      rewrite (Decode_loop_S n resp s), H; clear H; cbv beta iota
  end.

(** ** The configuration is immutable *)

Section KeepsConfig.

Context {A B : Type}.

Lemma keeps_ret (a : A) : keeps_config (ret a).
Proof. intros this. reflexivity. Qed.

Lemma keeps_raise (p : panic) : keeps_config (@raise A p).
Proof. intros this. reflexivity. Qed.

Lemma keeps_bind (c : M A) (k : A -> M B) :
  keeps_config c -> (forall a, keeps_config (k a)) -> keeps_config (bind c k).
Proof.
  intros Hc Hk this. unfold bind.
  specialize (Hc this). destruct (c this) as [[a | p] this'].
  - cbn [snd] in Hc. rewrite <- Hc. apply Hk.
  - exact Hc.
Qed.

Lemma keeps_if (b : bool) (c1 c2 : M A) :
  keeps_config c1 -> keeps_config c2 -> keeps_config (if b then c1 else c2).
Proof. destruct b; auto. Qed.

End KeepsConfig.

Lemma keeps_get : keeps_config get.
Proof. intros this. reflexivity. Qed.

Lemma keeps_modify (f : EncoderData -> EncoderData) :
  (forall d, config (f d) = config d) -> keeps_config (modify f).
Proof. intros Hf this. apply Hf. Qed.

Lemma keeps_in_Next n : keeps_config (in_Next n).
Proof.
  intros this. unfold in_Next. destruct (Buffer.Next n (in_ this)); reflexivity.
Qed.

Lemma keeps_in_Read buff : keeps_config (in_Read buff).
Proof.
  intros this. unfold in_Read. destruct (Buffer.Read buff (in_ this)). reflexivity.
Qed.

Lemma keeps_make_bytes n : keeps_config (make_bytes n).
Proof. unfold make_bytes. apply keeps_if; [ apply keeps_raise | apply keeps_ret ]. Qed.

Create HintDb keeps discriminated.
#[local] Hint Resolve keeps_ret keeps_raise keeps_get keeps_in_Next keeps_in_Read
  keeps_make_bytes : keeps.
#[local] Hint Extern 1 (keeps_config (bind _ _)) => apply keeps_bind; [ | intros ] : keeps.
#[local] Hint Extern 1 (keeps_config (if _ then _ else _)) => apply keeps_if : keeps.
#[local] Hint Extern 1 (keeps_config (modify _)) =>
  apply keeps_modify; intros; reflexivity : keeps.
#[local] Hint Extern 2 (keeps_config (match ?o with BigEndian => _ | LittleEndian => _ end)) =>
  destruct o : keeps.

Lemma keeps_fail n : keeps_config (fail n).
Proof. unfold fail. auto with keeps. Qed.
#[local] Hint Resolve keeps_fail : keeps.

Lemma keeps_failIfNecessary first : keeps_config (failIfNecessary first).
Proof. unfold failIfNecessary. auto 10 with keeps. Qed.
#[local] Hint Resolve keeps_failIfNecessary : keeps.

Lemma keeps_discardingTooLongFrameFunc : keeps_config discardingTooLongFrameFunc.
Proof. unfold discardingTooLongFrameFunc. auto 10 with keeps. Qed.
#[local] Hint Resolve keeps_discardingTooLongFrameFunc : keeps.

Lemma keeps_exceededFrameLength n : keeps_config (exceededFrameLength n).
Proof. unfold exceededFrameLength. auto 12 with keeps. Qed.
#[local] Hint Resolve keeps_exceededFrameLength : keeps.

Lemma keeps_failOnNegativeLengthField n e :
  keeps_config (failOnNegativeLengthField n e).
Proof. unfold failOnNegativeLengthField. auto with keeps. Qed.

Lemma keeps_failOnFrameLengthLessThanInitialBytesToStrip n e :
  keeps_config (failOnFrameLengthLessThanInitialBytesToStrip n e).
Proof. unfold failOnFrameLengthLessThanInitialBytesToStrip. auto with keeps. Qed.
#[local] Hint Resolve keeps_failOnNegativeLengthField
  keeps_failOnFrameLengthLessThanInitialBytesToStrip : keeps.

Lemma keeps_decode : keeps_config decode.
Proof.
  unfold decode.
  apply keeps_bind; [ auto with keeps | intros this0 ].
  apply keeps_bind; [ auto with keeps | intros _ ].
  apply keeps_bind; [ auto with keeps | intros this1 ].
  apply keeps_if; [ auto with keeps | ].
  apply keeps_bind; [ intros s; reflexivity | intros raw ].
  apply keeps_bind; [ auto with keeps | intros _ ].
  cbv zeta. auto 20 with keeps.
Qed.

Lemma Decode_loop_config fuel resp this o this' :
  Decode_loop fuel resp this = Some (o, this') -> config this' = config this.
Proof.
  revert resp this. induction fuel as [| fuel IH]; intros resp this H;
    [ discriminate | ].
  rewrite Decode_loop_S in H. pose proof (keeps_decode this) as Hk.
  destruct (decode this) as [[[arr |] | p] s]; cbn [snd] in Hk.
  - rewrite <- Hk. eapply IH. exact H.
  - injection H as _ <-. exact Hk.
  - injection H as _ <-. exact Hk.
Qed.

(** Every run of [Decode] leaves the configuration as it was. *)
Lemma Decode_config fuel buff lay this o this' :
  Decode fuel buff lay this = Some (o, this') -> config this' = config this.
Proof.
  unfold Decode. intros H. apply Decode_loop_config in H. exact H.
Qed.

Lemma feed_all_config fuel chunks acc this o this' :
  feed_all fuel chunks acc this = Some (o, this') -> config this' = config this.
Proof.
  revert acc this. induction chunks as [| [buff lay] chunks IH]; intros acc this H.
  - injection H as _ <-. reflexivity.
  - cbn [feed_all] in H.
    destruct (Decode fuel buff lay this) as [[[resp | p] s] |] eqn:HD;
      [ | | discriminate ].
    + apply Decode_config in HD. rewrite <- HD. eapply IH. exact H.
    + injection H as _ <-. eapply Decode_config. exact HD.
Qed.

(** So [lengthFieldEndOffset] stays the sum the constructor computed, in
    every state a decoder reaches. *)
Lemma lengthFieldEndOffset_kept fuel chunks max off len adj strip o this' :
  feed_all fuel chunks [] (NewLengthFieldFrameDecoder max off len adj strip)
  = Some (o, this') ->
  lengthFieldEndOffset this'
  = wrap64 (lengthFieldOffset this' + lengthFieldLength this').
Proof.
  intros H. apply feed_all_config in H. unfold config in H.
  injection H as _ _ Hoff Hlen Hend _ _ _.
  rewrite Hoff, Hlen, Hend. reflexivity.
Qed.

(** ** Helpers of the claims *)

Lemma after_precheck_config this : config (after_precheck this) = config this.
Proof.
  unfold after_precheck. destruct (discardingTooLongFrame this); [ | reflexivity ].
  apply keeps_discardingTooLongFrameFunc.
Qed.

(** The step on a frame longer than [maxFrameLength]. *)
Lemma decode_exceeds this raw :
  let s := after_precheck this in
  let frameLength := adjustedFrameLength s raw in
  lengthFieldOffset s <= Buffer.Len (in_ s) ->
  rawLength s = Ret raw ->
  0 <= raw ->
  maxFrameLength s < frameLength ->
  decode this = ((exceededFrameLength frameLength ;; ret None) s).
Proof.
  intros s frameLength Hoff Hraw Hnonneg Hlong.
  rewrite decode_precheck. fold s. cbv zeta.
  destruct (Z.ltb_spec (Buffer.Len (in_ s)) (lengthFieldOffset s)); [ lia | ].
  rewrite Hraw.
  destruct (Z.ltb_spec raw 0) as [? | _]; [ lia | ].
  unfold bind at 1. unfold ret at 1. fold frameLength.
  destruct (Z.gtb_spec frameLength (maxFrameLength s)) as [_ | ?]; [ | lia ].
  reflexivity.
Qed.

(** [exceededFrameLength], in one equation. *)
Lemma exceededFrameLength_eq frameLength this :
  0 <= frameLength ->
  exceededFrameLength frameLength this
  = (Ret tt,
     let b := in_ this in
     let discard := wrap64 (frameLength - Buffer.Len b) in
     let s := set_tooLongFrameLength frameLength this in
     let s :=
       if discard <? 0 then
         set_in (Buffer.mk
                   (Buffer.before b ++ firstn (Z.to_nat frameLength) (Buffer.unread b))
                   (skipn (Z.to_nat frameLength) (Buffer.unread b))
                   (Buffer.after b)) s
       else
         set_in (Buffer.mk (Buffer.before b ++ Buffer.unread b) [] (Buffer.after b))
           (set_bytesToDiscard discard (set_discardingTooLongFrame true s)) in
     if bytesToDiscard s =? 0
     then set_discardingTooLongFrame false (set_tooLongFrameLength 0 s)
     else s).
Proof.
  intros Hpos. unfold exceededFrameLength.
  unfold bind at 1. unfold get at 1.
  unfold bind at 1. unfold modify at 1. cbv zeta.
  destruct (wrap64 (frameLength - Buffer.Len (in_ this)) <? 0).
  - unfold bind at 1. rewrite in_Next_eq by assumption.
    rewrite failIfNecessary_eq. reflexivity.
  - unfold bind at 1. unfold bind at 1. unfold modify at 1.
    unfold bind at 1. unfold modify at 1.
    unfold bind at 1. unfold get at 1.
    rewrite in_Next_eq by (unfold Buffer.Len; lia).
    rewrite failIfNecessary_eq.
    cbn [in_ set_in set_bytesToDiscard set_discardingTooLongFrame set_tooLongFrameLength].
    unfold Buffer.Len. rewrite Nat2Z.id, firstn_all, skipn_all. reflexivity.
Qed.

(** The step on a negative raw value: [Next lengthFieldEndOffset], then
    the panic. *)
Lemma decode_negative_raw this raw :
  let s := after_precheck this in
  let e := lengthFieldEndOffset s in
  lengthFieldOffset s <= Buffer.Len (in_ s) ->
  rawLength s = Ret raw ->
  raw < 0 ->
  0 <= e ->
  decode this
  = (Panics (NegativeLengthField raw),
     set_in (Buffer.mk
               (Buffer.before (in_ s) ++ firstn (Z.to_nat e) (Buffer.unread (in_ s)))
               (skipn (Z.to_nat e) (Buffer.unread (in_ s)))
               (Buffer.after (in_ s))) s).
Proof.
  intros s e Hoff Hraw Hneg He.
  rewrite decode_precheck. fold s. cbv zeta.
  destruct (Z.ltb_spec (Buffer.Len (in_ s)) (lengthFieldOffset s)); [ lia | ].
  rewrite Hraw.
  destruct (Z.ltb_spec raw 0) as [_ | ?]; [ | lia ].
  unfold bind at 1. unfold failOnNegativeLengthField.
  unfold bind at 1. fold e. rewrite in_Next_eq by assumption.
  reflexivity.
Qed.

Section SparesNegative.

Context {A B : Type}.

Lemma spares_ret (a : A) : spares_negative (ret a).
Proof. intros this n. discriminate. Qed.

Lemma spares_bind (c : M A) (k : A -> M B) :
  spares_negative c -> (forall a, spares_negative (k a)) -> spares_negative (bind c k).
Proof.
  intros Hc Hk this n. unfold bind. specialize (Hc this n).
  destruct (c this) as [[a | p] this'].
  - apply Hk.
  - cbn [fst] in *. intros [= ->]. apply Hc. reflexivity.
Qed.

Lemma spares_if (b : bool) (c1 c2 : M A) :
  spares_negative c1 -> spares_negative c2 -> spares_negative (if b then c1 else c2).
Proof. destruct b; auto. Qed.

End SparesNegative.

Lemma spares_get : spares_negative get.
Proof. intros this n. discriminate. Qed.

Lemma spares_modify f : spares_negative (modify f).
Proof. intros this n. discriminate. Qed.

Lemma spares_in_Next m : spares_negative (in_Next m).
Proof.
  intros this n. unfold in_Next. destruct (Buffer.Next m (in_ this)); discriminate.
Qed.

Lemma spares_in_Read buff : spares_negative (in_Read buff).
Proof.
  intros this n. unfold in_Read. destruct (Buffer.Read buff (in_ this)). discriminate.
Qed.

Lemma spares_make_bytes m : spares_negative (make_bytes m).
Proof. intros this n. unfold make_bytes. destruct (m <? 0); discriminate. Qed.

Lemma spares_failIfNecessary first : spares_negative (failIfNecessary first).
Proof. intros this n. rewrite failIfNecessary_eq. discriminate. Qed.

Create HintDb spares discriminated.
#[local] Hint Resolve spares_ret spares_get spares_modify spares_in_Next spares_in_Read
  spares_make_bytes spares_failIfNecessary : spares.
#[local] Hint Extern 1 (spares_negative (bind _ _)) =>
  apply spares_bind; [ | intros ] : spares.
#[local] Hint Extern 1 (spares_negative (if _ then _ else _)) => apply spares_if : spares.
#[local] Hint Extern 1 (spares_negative (raise _)) =>
  intros ? ?; discriminate : spares.

Lemma spares_exceededFrameLength m : spares_negative (exceededFrameLength m).
Proof. unfold exceededFrameLength. auto 12 with spares. Qed.

Lemma spares_failOnFrameLengthLessThanInitialBytesToStrip m e :
  spares_negative (failOnFrameLengthLessThanInitialBytesToStrip m e).
Proof. unfold failOnFrameLengthLessThanInitialBytesToStrip. auto with spares. Qed.
#[local] Hint Resolve spares_exceededFrameLength
  spares_failOnFrameLengthLessThanInitialBytesToStrip : spares.

Lemma rawLength_spares this p n :
  rawLength this = Panics p -> p <> NegativeLengthField n.
Proof.
  unfold rawLength, getUnadjustedFrameLength.
  destruct (Buffer.reslice _ _ _); [ | intros [= <-]; discriminate ].
  repeat match goal with
         | |- context [if ?c then _ else _] => destruct c
         | |- context [match ?o with BigEndian => _ | LittleEndian => _ end] => destruct o
         end; intros [= <-]; discriminate.
Qed.

(** The negative-length panic comes from a negative raw value only. *)
Lemma decode_negative_inv this n this' :
  decode this = (Panics (NegativeLengthField n), this') ->
  rawLength (after_precheck this) = Ret n /\ n < 0.
Proof.
  rewrite decode_precheck. cbv zeta.
  set (s := after_precheck this).
  destruct (Z.ltb_spec (Buffer.Len (in_ s)) (lengthFieldOffset s)); [ discriminate | ].
  destruct (rawLength s) as [raw | q] eqn:Hraw.
  2:{ intros [= -> _]. exfalso. exact (rawLength_spares s _ n Hraw eq_refl). }
  destruct (Z.ltb_spec raw 0) as [Hneg | Hnonneg].
  - unfold bind at 1. unfold failOnNegativeLengthField. unfold bind at 1.
    unfold in_Next. destruct (Buffer.Next _ _); [ | discriminate ].
    unfold raise. intros [= -> _]. split; [ reflexivity | assumption ].
  - intros Hd. exfalso.
    match type of Hd with
    | ?c s = _ => assert (Hs : spares_negative c)
    end.
    { cbv zeta. auto 20 with spares. }
    apply (Hs s n). rewrite Hd. reflexivity.
Qed.

(** The value read from a field that lies in the buffer of [s]. *)
Lemma rawLength_field (this : EncoderData) bf pre field post af :
  lengthFieldOffset this = Z.of_nat (length pre) ->
  lengthFieldLength this = Z.of_nat (length field) ->
  rawLength (set_in (Buffer.mk bf (pre ++ field ++ post) af) this)
  = getUnadjustedFrameLength this (Buffer.mk bf (pre ++ field ++ post) af)
      (Z.of_nat (length pre)) (Z.of_nat (length field)) (byteOrder this).
Proof.
  intros Hoff Hlen. unfold rawLength. cbn [in_ set_in lengthFieldOffset
    lengthFieldLength byteOrder]. rewrite Hoff, Hlen. reflexivity.
Qed.

Lemma firstn_field {A} (pre field post : list A) :
  firstn (length pre + length field) (pre ++ field ++ post) = pre ++ field
  /\ skipn (length pre + length field) (pre ++ field ++ post) = post.
Proof.
  rewrite app_assoc, <- length_app. split.
  - rewrite firstn_app, firstn_all, Nat.sub_diag. cbn [firstn]. apply app_nil_r.
  - rewrite skipn_app, skipn_all, Nat.sub_diag. reflexivity.
Qed.

(** The first step of [Decode] on the "HELLO, WORLD" frame extracts it. *)
Lemma hello_world_first_step max strip bf af :
  14 <= max ->
  strip = 0 \/ strip = 2 ->
  let d := NewLengthFieldFrameDecoder max 0 2 0 strip in
  exists bf',
    decode (set_in (Buffer.mk bf hello_frame af) d)
    = (Ret (Some (skipn (Z.to_nat strip) hello_frame)),
       set_in (Buffer.mk bf' [] af) d).
Proof.
  intros Hmax Hstrip d.
  rewrite decode_precheck. cbv zeta.
  rewrite after_precheck_normal by reflexivity.
  rewrite (rawLength_prefix _ hello_frame af) by (vm_compute; reflexivity).
  match goal with
  | |- context [getUnadjustedFrameLength ?s ?b ?o ?l ?r] =>
      let v := eval vm_compute in (getUnadjustedFrameLength s b o l r) in
      change (getUnadjustedFrameLength s b o l r) with v
  end.
  cbv iota.
  change (Buffer.Len (in_ (set_in (Buffer.mk bf hello_frame af) d))) with 14.
  change (lengthFieldOffset (set_in (Buffer.mk bf hello_frame af) d)) with 0.
  change (14 <? 0) with false. change (12 <? 0) with false. cbv iota.
  unfold bind at 1. unfold ret at 1.
  assert (Hfl : adjustedFrameLength (set_in (Buffer.mk bf hello_frame af) d) 12 = 14)
    by (vm_compute; reflexivity).
  rewrite Hfl. clear Hfl.
  change (maxFrameLength (set_in (Buffer.mk bf hello_frame af) d)) with max.
  destruct (Z.gtb_spec 14 max) as [? | _]; [ lia | ].
  change (14 <? 14) with false. cbv iota.
  destruct Hstrip as [Hs | Hs]; subst d strip;
    eexists; vm_compute; reflexivity.
Qed.

(** The second step finds the buffer empty, reads a zero length field from
    the two zero bytes behind it and waits. *)
Lemma hello_world_second_step max strip bf rest :
  2 <= max ->
  let d := NewLengthFieldFrameDecoder max 0 2 0 strip in
  let left := set_in (Buffer.mk bf [] (x00 :: x00 :: rest)) d in
  decode left = (Ret None, left).
Proof.
  intros Hmax d left.
  rewrite decode_precheck. cbv zeta.
  rewrite after_precheck_normal by reflexivity.
  rewrite (rawLength_prefix _ [x00; x00] rest) by (vm_compute; reflexivity).
  match goal with
  | |- context [getUnadjustedFrameLength ?s ?b ?o ?l ?r] =>
      let v := eval vm_compute in (getUnadjustedFrameLength s b o l r) in
      change (getUnadjustedFrameLength s b o l r) with v
  end.
  cbv iota.
  change (Buffer.Len (in_ left)) with 0.
  change (lengthFieldOffset left) with 0.
  change (0 <? 0) with false. cbv iota.
  unfold bind at 1. unfold ret at 1.
  assert (Hfl : adjustedFrameLength left 0 = 2) by (vm_compute; reflexivity).
  rewrite Hfl. clear Hfl.
  change (maxFrameLength left) with max.
  destruct (Z.gtb_spec 2 max) as [? | _]; [ lia | ].
  reflexivity.
Qed.

(** * The claims *)

(** ** C1: one stream, two ways of cutting it *)

(** C1 (the code departs from it).  The claim: feeding a well-formed stream
    in chunks yields the payloads of feeding it whole.  The code: on the
    source's own example (length field of 2 bytes at offset 1,
    lengthAdjustment -3, initialBytesToStrip 3) the frame
    CA 00 10 FE "HELLO, WORLD" fed whole yields the payload
    FE "HELLO, WORLD" under every layout of the buffer, while fed one byte
    first it panics on that byte: [decode] only waits for lengthFieldOffset
    bytes, so it reads the length field past the one buffered byte, which
    is out of the array's bounds when fewer than two bytes of capacity are
    to spare, and reads 0 from a newly allocated array otherwise, and a
    frameLength of 0 is below initialBytesToStrip. *)
Theorem C1_chunked_feed_panics_where_whole_feed_decodes :
  (forall lay, exists this',
      feed_all 2 [(middle_frame, lay)] [] doc_middle
      = Some (Ret [middle_payload], this'))
  /\ (forall room lay, exists this',
         feed_all 2 [([xca], Buffer.fresh room); (tl middle_frame, lay)] []
           doc_middle
         = Some (Panics (if (room <? 2)%nat
                         then SliceBounds
                         else FrameLengthLessThanInitialBytesToStrip 0 3),
                 this')).
Proof.
  split.
  - intros [bf af].
    assert (H : exists this',
               Decode 2 middle_frame (Buffer.layout bf af) doc_middle
               = Some (Ret [middle_payload], this')).
    { eexists. unfold Decode. loop_step middle_frame af. reflexivity. }
    destruct H as [this' H]. exists this'.
    unfold feed_all. rewrite H. reflexivity.
  - intros room lay.
    assert (H : exists this',
               Decode 2 [xca] (Buffer.fresh room) doc_middle
               = Some (Panics (if (room <? 2)%nat
                               then SliceBounds
                               else FrameLengthLessThanInitialBytesToStrip 0 3),
                       this')).
    { destruct room as [| [| room]].
      - vm_compute. eexists. reflexivity.
      - vm_compute. eexists. reflexivity.
      - eexists. unfold Decode.
        loop_step [xca; x00; x00] (repeat x00 room). reflexivity. }
    destruct H as [this' H]. exists this'.
    unfold feed_all. rewrite H. reflexivity.
Qed.

(** ** C2: an oversized frame cut by a chunk boundary *)

(** C2 (the code departs from it).  The claim: the bytes of an oversized
    frame never reach the output and the frames after it still decode.  The
    code, on a 12-byte frame against a maxFrameLength of 8, cut after its
    fourth byte and followed by a well-formed 4-byte frame: the first feed
    drops the four bytes and enters discarding mode with 8 bytes to go; the
    second feed drops two bytes per step instead of eight, so it parses
    the rest of the oversized frame as frames, returns three of its bytes
    as a payload, and swallows the well-formed frame into a new discard of
    184 bytes.  Fed alone, the well-formed frame decodes. *)
Theorem C2_discarded_frame_leaks_and_next_frame_is_lost :
  (rawLength (set_in (Buffer.mk [] oversized_head []) tiny) = Ret 10
   /\ adjustedFrameLength tiny 10 = 12
   /\ maxFrameLength tiny = 8)
  /\ (forall lay, exists this',
         feed_all 3 [(good_frame, lay)] [] tiny = Some (Ret [good_frame], this'))
  /\ (forall lay1 lay2, exists this',
         feed_all 3 [(oversized_head, lay1);
                     (oversized_tail ++ good_frame, lay2)] [] tiny
         = Some (Ret [[x01; x01; x01]], this')
         /\ Buffer.unread (in_ this') = []
         /\ discardingTooLongFrame this' = true
         /\ bytesToDiscard this' = 184).
Proof.
  split; [ vm_compute; auto | split ].
  - intros [bf af].
    assert (H : exists this',
               Decode 3 good_frame (Buffer.layout bf af) tiny
               = Some (Ret [good_frame], this')).
    { eexists. unfold Decode. loop_step good_frame af. reflexivity. }
    destruct H as [this' H]. exists this'.
    unfold feed_all. rewrite H. reflexivity.
  - intros [bf1 af1] [bf2 af2].
    assert (H1 : Decode 3 oversized_head (Buffer.layout bf1 af1) tiny
                 = Some (Ret [],
                         set_in (Buffer.mk (bf1 ++ oversized_head) [] af1)
                           (set_bytesToDiscard 8
                              (set_discardingTooLongFrame true
                                 (set_tooLongFrameLength 12 tiny))))).
    { unfold Decode. loop_step oversized_head af1. reflexivity. }
    assert (H2 : exists this',
               Decode 3 (oversized_tail ++ good_frame) (Buffer.layout bf2 af2)
                 (set_in (Buffer.mk (bf1 ++ oversized_head) [] af1)
                    (set_bytesToDiscard 8
                       (set_discardingTooLongFrame true
                          (set_tooLongFrameLength 12 tiny))))
               = Some (Ret [[x01; x01; x01]], this')
               /\ Buffer.unread (in_ this') = []
               /\ discardingTooLongFrame this' = true
               /\ bytesToDiscard this' = 184).
    { eexists. unfold Decode. split.
      - loop_step (skipn 2 (oversized_tail ++ good_frame)) af2.
        loop_step [x01; xbb; x02; x41; x42] af2.
        reflexivity.
      - vm_compute. auto. }
    destruct H2 as [this' [H2 Hst]]. exists this'. split; [ | exact Hst ].
    unfold feed_all. rewrite H1, H2. reflexivity.
Qed.

(** ** C3: the discard pre-check *)

(** C3 (the code departs from it).  The claim: a step that begins in
    discarding mode removes min(bytesToDiscard, buffered length) bytes and
    lowers bytesToDiscard by that amount.  The code: the minimum is
    overwritten by the constant 2, so the pre-check always advances the
    buffer by two bytes (by what is there when fewer are buffered) and
    always lowers bytesToDiscard by 2; the mode is cleared exactly when the
    new bytesToDiscard is 0.  With 5 bytes to discard and 8 buffered it
    removes 2 and leaves 3 to discard, still in discarding mode, where the
    claim removes 5 and leaves the mode. *)
Theorem C3_discard_precheck_drops_two_bytes :
  (forall this : EncoderData,
      let this' := snd (discardingTooLongFrameFunc this) in
      fst (discardingTooLongFrameFunc this) = Ret tt
      /\ Buffer.unread (in_ this') = skipn 2 (Buffer.unread (in_ this))
      /\ bytesToDiscard this' = wrap64 (bytesToDiscard this - 2)
      /\ discardingTooLongFrame this'
         = (if wrap64 (bytesToDiscard this - 2) =? 0
            then false
            else discardingTooLongFrame this))
  /\ (let this' := snd (discardingTooLongFrameFunc discarding_five) in
      Z.min (bytesToDiscard discarding_five) (Buffer.Len (in_ discarding_five)) = 5
      /\ Buffer.unread (in_ this') = [x03; x04; x05; x06; x07; x08]
      /\ bytesToDiscard this' = 3
      /\ discardingTooLongFrame this' = true).
Proof.
  split.
  - intros this this'. subst this'.
    rewrite discardingTooLongFrameFunc_eq. cbv zeta. cbn [fst snd].
    split; [ reflexivity | ].
    unfold set_bytesToDiscard at 1 4 7.
    cbn [bytesToDiscard].
    destruct (wrap64 (bytesToDiscard this - 2) =? 0) eqn:E;
      cbn; rewrite ?E; auto.
  - vm_compute. auto.
Qed.

(** ** C4: fewer bytes than the length field needs *)

(** C4 (the code departs from it).  The claim: with fewer than
    lengthFieldOffset + lengthFieldLength bytes buffered, Decode returns an
    empty list and no error.  The code waits only below lengthFieldOffset
    bytes; from there on it slices the length field out of the array
    whether or not the field has arrived.  With the 2-byte field at offset
    0 and the single byte 80 buffered, Decode panics under every layout: on
    the slice when the array ends there, on a negative length otherwise.
    With the field at offset 1 and the two bytes CA 00 of a well-formed
    frame buffered in a newly allocated array, it panics as well. *)
Theorem C4_partial_length_field_is_read :
  (forall lay, exists p this',
      Decode 1 [x80] lay doc_plain = Some (Panics p, this'))
  /\ (forall room, exists this',
         Decode 1 [xca; x00] (Buffer.fresh room) doc_middle
         = Some (Panics (if (room <? 1)%nat
                         then SliceBounds
                         else FrameLengthLessThanInitialBytesToStrip 0 3),
                 this')).
Proof.
  split.
  - intros [bf [| a af]].
    + vm_compute. eauto.
    + unfold Decode.
      destruct a;
        lazymatch goal with
        | |- context [Buffer.layout _ (?a :: _)] =>
            do 2 eexists; loop_step [x80; a] af; reflexivity
        end.
  - intros [| room].
    + vm_compute. eexists. reflexivity.
    + eexists. unfold Decode.
      loop_step [xca; x00; x00] (repeat x00 room). reflexivity.
Qed.

(** ** C5: the too-long-frame report *)

(** C5 (the code departs from it).  The claim: a frame whose frameLength
    exceeds maxFrameLength is reported to the caller, at once when failFast
    is set, when the discarding completes otherwise.  The code: fail, the
    hook both branches of failIfNecessary call to report it, has its body
    commented out, so nothing is ever reported.  The step that detects the
    frame (maxFrameLength not negative, the buffer a Go slice) returns nil
    for either failFast: it drops what is buffered of the frame and, when
    part of it is still to come, enters discarding mode with that part as
    bytesToDiscard.  failIfNecessary only clears the discarding state when
    bytesToDiscard is 0, whatever failFast and its argument are, and the
    discard pre-check raises nothing.  With failFast set, the step that
    detects a 12-byte frame against a maxFrameLength of 8 returns nil;
    without it, the step that completes a discard returns nil, and the two
    Decode calls that receive the frame from a new decoder, the second
    completing the discard, both return an empty list. *)
Theorem C5_too_long_frame_is_never_signalled :
  (forall (this : EncoderData) (raw : Z),
      let s := after_precheck this in
      let frameLength := adjustedFrameLength s raw in
      let buffered := Buffer.Len (in_ s) in
      lengthFieldOffset s <= buffered < 2 ^ 63 ->
      rawLength s = Ret raw ->
      0 <= raw ->
      0 <= maxFrameLength s < frameLength ->
      exists this',
        decode this = (Ret None, this')
        /\ config this' = config this
        /\ Buffer.unread (in_ this')
           = skipn (Z.to_nat frameLength) (Buffer.unread (in_ s))
        /\ (buffered < frameLength ->
            discardingTooLongFrame this' = true
            /\ bytesToDiscard this' = frameLength - buffered
            /\ tooLongFrameLength this' = frameLength)
        /\ (buffered = frameLength ->
            discardingTooLongFrame this' = false
            /\ bytesToDiscard this' = 0
            /\ tooLongFrameLength this' = 0)
        /\ (frameLength < buffered ->
            discardingTooLongFrame this'
            = (if bytesToDiscard s =? 0 then false else discardingTooLongFrame s)
            /\ bytesToDiscard this' = bytesToDiscard s
            /\ tooLongFrameLength this'
               = (if bytesToDiscard s =? 0 then 0 else frameLength)))
  /\ (forall n d, fail n d = (Ret tt, d))
  /\ (forall first d,
         failIfNecessary first d
         = (Ret tt,
            if bytesToDiscard d =? 0
            then set_discardingTooLongFrame false (set_tooLongFrameLength 0 d)
            else d))
  /\ (forall d, fst (discardingTooLongFrameFunc d) = Ret tt)
  /\ (failFast too_long_failfast = true
      /\ rawLength too_long_failfast = Ret 10
      /\ adjustedFrameLength too_long_failfast 10 = 12
      /\ maxFrameLength too_long_failfast = 8
      /\ decode too_long_failfast
         = (Ret None,
            set_in (Buffer.mk [xaa; x0a; x01] [] [])
              (set_bytesToDiscard 9
                 (set_discardingTooLongFrame true
                    (set_tooLongFrameLength 12 too_long_failfast)))))
  /\ (failFast discard_completes = false
      /\ discardingTooLongFrame discard_completes = true
      /\ bytesToDiscard discard_completes = 2
      /\ decode discard_completes
         = (Ret None, set_in (Buffer.mk [x01; x01] [] []) tiny))
  /\ (failFast tiny = false
      /\ forall lay1 lay2,
        let discarding :=
          set_in (Buffer.mk (Buffer.lay_before lay1 ++ oversized_ten) []
                    (Buffer.lay_after lay1))
            (set_bytesToDiscard 2
               (set_discardingTooLongFrame true
                  (set_tooLongFrameLength 12 tiny))) in
        let done :=
          set_in (Buffer.mk (Buffer.lay_before lay2 ++ oversized_last) []
                    (Buffer.lay_after lay2)) tiny in
        Decode 2 oversized_ten lay1 tiny = Some (Ret [], discarding)
        /\ Decode 2 oversized_last lay2 discarding = Some (Ret [], done)
        /\ feed_all 2 [(oversized_ten, lay1); (oversized_last, lay2)] [] tiny
           = Some (Ret [], done)).
Proof.
  split; [ | split; [ reflexivity | split; [ exact failIfNecessary_eq | split;
    [ | split; [ vm_compute; repeat split; reflexivity | split;
      [ vm_compute; repeat split; reflexivity | ] ] ] ] ] ].
  - intros this raw s frameLength buffered Hbuf Hraw Hnonneg Hlong.
    assert (Hfl : - 2 ^ 63 <= frameLength < 2 ^ 63) by apply wrap64_range.
    subst buffered.
    assert (Hpos : 0 <= Buffer.Len (in_ s)) by (unfold Buffer.Len; lia).
    assert (Hoff : lengthFieldOffset s <= Buffer.Len (in_ s)) by lia.
    assert (Hmax : maxFrameLength s < frameLength) by lia.
    rewrite (decode_exceeds this raw Hoff Hraw Hnonneg Hmax).
    fold s. fold frameLength.
    unfold bind at 1. rewrite exceededFrameLength_eq by lia. unfold ret.
    cbv zeta. rewrite wrap64_small by lia.
    eexists. split; [ reflexivity | ].
    split.
    { transitivity (config s); [ | apply after_precheck_config ].
      destruct (frameLength - Buffer.Len (in_ s) <? 0);
        match goal with |- context [if ?c then _ else _] => destruct c end;
        reflexivity. }
    destruct (Z.ltb_spec (frameLength - Buffer.Len (in_ s)) 0) as [Hlt | Hge].
    + cbn [bytesToDiscard set_in set_tooLongFrameLength].
      destruct (bytesToDiscard s =? 0);
        cbn [in_ set_in set_tooLongFrameLength set_discardingTooLongFrame
             Buffer.unread bytesToDiscard discardingTooLongFrame tooLongFrameLength];
        (split; [ reflexivity | ]); repeat split; try lia; reflexivity.
    + cbn [bytesToDiscard set_in set_tooLongFrameLength set_bytesToDiscard
           set_discardingTooLongFrame].
      assert (Hskip : skipn (Z.to_nat frameLength) (Buffer.unread (in_ s)) = []).
      { apply skipn_all_Z. unfold Buffer.Len in Hge. lia. }
      rewrite Hskip.
      destruct (Z.eqb_spec (frameLength - Buffer.Len (in_ s)) 0) as [Heq | Hne];
        cbn [in_ set_in set_tooLongFrameLength set_discardingTooLongFrame
             set_bytesToDiscard Buffer.unread bytesToDiscard
             discardingTooLongFrame tooLongFrameLength];
        (split; [ reflexivity | ]); repeat split; try lia; reflexivity.
  - intros d. rewrite discardingTooLongFrameFunc_eq. reflexivity.
  - split; [ reflexivity | ].
    intros [bf1 af1] [bf2 af2]. cbv zeta. cbn [Buffer.lay_before Buffer.lay_after].
    assert (H1 : Decode 2 oversized_ten (Buffer.layout bf1 af1) tiny
                 = Some (Ret [],
                         set_in (Buffer.mk (bf1 ++ oversized_ten) [] af1)
                           (set_bytesToDiscard 2
                              (set_discardingTooLongFrame true
                                 (set_tooLongFrameLength 12 tiny))))).
    { unfold Decode. loop_step oversized_ten af1. reflexivity. }
    assert (H2 : Decode 2 oversized_last (Buffer.layout bf2 af2)
                   (set_in (Buffer.mk (bf1 ++ oversized_ten) [] af1)
                      (set_bytesToDiscard 2
                         (set_discardingTooLongFrame true
                            (set_tooLongFrameLength 12 tiny))))
                 = Some (Ret [],
                         set_in (Buffer.mk (bf2 ++ oversized_last) [] af2) tiny)).
    { unfold Decode. rewrite Decode_loop_S.
      vm_compute. reflexivity. }
    split; [ exact H1 | split; [ exact H2 | ] ].
    unfold feed_all. rewrite H1, H2. reflexivity.
Qed.

(** ** C6: the "HELLO, WORLD" frame *)

(** With fewer than two bytes of capacity behind the frame, the second step
    of the loop, called on the empty buffer with lengthFieldOffset 0, slices
    the length field past the end of the array and panics: the defect of
    C4. *)
Lemma hello_world_without_spare_capacity :
  (exists this',
      Decode 2 hello_frame (Buffer.fresh 0) doc_plain
      = Some (Panics SliceBounds, this'))
  /\ (exists this',
         Decode 2 hello_frame (Buffer.fresh 0) doc_strip
         = Some (Panics SliceBounds, this'))
  /\ (exists this',
         Decode 2 hello_frame (Buffer.fresh 1) doc_plain
         = Some (Panics SliceBounds, this'))
  /\ (exists this',
         Decode 2 hello_frame (Buffer.fresh 1) doc_strip
         = Some (Panics SliceBounds, this')).
Proof. repeat split; vm_compute; eexists; reflexivity. Qed.

(** C6.  Fed the 14 bytes 00 0C "HELLO, WORLD", a new decoder with the
    2-byte big-endian length field at offset 0 and lengthAdjustment 0
    returns exactly one payload: the whole 14-byte frame with
    initialBytesToStrip 0, the 12 bytes "HELLO, WORLD" with
    initialBytesToStrip 2.  This holds for every maxFrameLength of at least
    14, for every number of steps the loop is allowed from 2 on, and for
    every layout of the backing array in which two zero bytes of capacity
    lie behind the written bytes (a newly allocated array is zeroed): once
    the frame is extracted, the loop calls decode on the empty buffer,
    which reads the length field from these two bytes, finds a frame of
    2 bytes not yet there and waits. *)
Theorem C6_hello_world_frame_is_decoded
    (max : Z) (fuel : nat) (lay : Buffer.Layout) (rest : list byte) :
  14 <= max ->
  Buffer.lay_after lay = x00 :: x00 :: rest ->
  (2 <= fuel)%nat ->
  (exists this',
      Decode fuel hello_frame lay (NewLengthFieldFrameDecoder max 0 2 0 0)
      = Some (Ret [hello_frame], this')
      /\ Buffer.unread (in_ this') = []
      /\ discardingTooLongFrame this' = false)
  /\ (exists this',
         Decode fuel hello_frame lay (NewLengthFieldFrameDecoder max 0 2 0 2)
         = Some (Ret [HELLO_WORLD], this')
         /\ Buffer.unread (in_ this') = []
         /\ discardingTooLongFrame this' = false).
Proof.
  intros Hmax Hlay Hfuel. destruct lay as [bf af]. cbn [Buffer.lay_after] in Hlay.
  subst af. destruct fuel as [| [| fuel]]; try lia. clear Hfuel.
  split.
  - destruct (hello_world_first_step max 0 bf (x00 :: x00 :: rest) Hmax (or_introl eq_refl))
      as [bf' H1].
    eexists. unfold Decode. cbv zeta in H1.
    change (set_in (Buffer.Write hello_frame (Buffer.layout bf (x00 :: x00 :: rest))
                      (in_ (NewLengthFieldFrameDecoder max 0 2 0 0)))
              (NewLengthFieldFrameDecoder max 0 2 0 0))
      with (set_in (Buffer.mk bf hello_frame (x00 :: x00 :: rest))
              (NewLengthFieldFrameDecoder max 0 2 0 0)).
    rewrite Decode_loop_S, H1, Decode_loop_S.
    rewrite (hello_world_second_step max 0 bf' rest) by lia.
    split; [ reflexivity | split; reflexivity ].
  - destruct (hello_world_first_step max 2 bf (x00 :: x00 :: rest) Hmax (or_intror eq_refl))
      as [bf' H1].
    eexists. unfold Decode. cbv zeta in H1.
    change (set_in (Buffer.Write hello_frame (Buffer.layout bf (x00 :: x00 :: rest))
                      (in_ (NewLengthFieldFrameDecoder max 0 2 0 2)))
              (NewLengthFieldFrameDecoder max 0 2 0 2))
      with (set_in (Buffer.mk bf hello_frame (x00 :: x00 :: rest))
              (NewLengthFieldFrameDecoder max 0 2 0 2)).
    rewrite Decode_loop_S, H1, Decode_loop_S.
    rewrite (hello_world_second_step max 2 bf' rest) by lia.
    split; [ reflexivity | split; reflexivity ].
Qed.

Lemma C6_hello_world_frame_is_decoded_witness :
  (exists this',
      Decode 2 hello_frame (Buffer.fresh 2) doc_plain
      = Some (Ret [hello_frame], this')
      /\ Buffer.unread (in_ this') = []
      /\ discardingTooLongFrame this' = false)
  /\ (exists this',
         Decode 2 hello_frame (Buffer.fresh 2) doc_strip
         = Some (Ret [HELLO_WORLD], this')
         /\ Buffer.unread (in_ this') = []
         /\ discardingTooLongFrame this' = false).
Proof.
  apply (C6_hello_world_frame_is_decoded 1024 2 (Buffer.fresh 2) []).
  - vm_compute. discriminate.
  - reflexivity.
  - lia.
Defined.

(** ** C7: a negative length field *)

(** C7 (the code departs from it).  The claim: on a negative raw value the
    step removes exactly lengthFieldEndOffset bytes from the buffer, then
    raises the negative-length error.  The code: the step calls
    Next(lengthFieldEndOffset), which removes the bytes that are buffered
    when they are fewer, then panics with the negative-length message,
    returning no payload, whatever failFast is.  decode reads the length
    field as soon as lengthFieldOffset bytes are buffered, so the field may
    end past them: with the single byte 80 buffered and a byte of capacity
    behind it, the 2-byte field at offset 0 reads negative and the step
    removes one byte, where lengthFieldEndOffset is 2.  The buffer meant is
    the one the value is read from: the entry buffer outside discarding
    mode, the buffer left by the discard pre-check otherwise. *)
Theorem C7_negative_length_field_drops_what_is_buffered :
  (forall (this : EncoderData) (raw : Z),
      let s := after_precheck this in
      let e := lengthFieldEndOffset s in
      e = wrap64 (lengthFieldOffset s + lengthFieldLength s) ->
      lengthFieldOffset s <= Buffer.Len (in_ s) ->
      rawLength s = Ret raw ->
      raw < 0 ->
      exists this',
        decode this = (Panics (NegativeLengthField raw), this')
        /\ Buffer.unread (in_ this') = skipn (Z.to_nat e) (Buffer.unread (in_ s))
        /\ Buffer.Len (in_ this') = Buffer.Len (in_ s) - Z.min e (Buffer.Len (in_ s))
        /\ this' = set_in (in_ this') s
        /\ (discardingTooLongFrame this = false -> s = this))
  /\ lengthFieldEndOffset doc_plain = 2
  /\ (forall bf b af,
         let this := set_in (Buffer.mk bf [x80] (b :: af)) doc_plain in
         rawLength this = Ret (u8 b - 32768)
         /\ u8 b - 32768 < 0
         /\ Buffer.Len (in_ this) = 1
         /\ Decode 1 [x80] (Buffer.layout bf (b :: af)) doc_plain
            = Some (Panics (NegativeLengthField (u8 b - 32768)),
                    set_in (Buffer.mk (bf ++ [x80]) [] (b :: af)) doc_plain)).
Proof.
  split; [ | split; [ reflexivity | ] ].
  - intros this raw s e He Hoff Hraw Hneg.
    destruct (rawLength_bounds s raw Hraw) as [Hpos Hend].
    fold e in He. rewrite <- He in Hend.
    rewrite (decode_negative_raw this raw Hoff Hraw Hneg) by (fold s e; lia).
    fold s. fold e.
    eexists. split; [ reflexivity | ].
    cbn [in_ set_in Buffer.unread]. unfold Buffer.Len. cbn [Buffer.unread].
    split; [ reflexivity | ]. split.
    + rewrite length_skipn. lia.
    + split; [ reflexivity | apply after_precheck_normal ].
  - intros bf b af. cbv zeta.
    assert (Hb : 0 <= u8 b < 256) by apply u8_range.
    split; [ | split; [ lia | split; [ reflexivity | ] ] ].
    + rewrite (rawLength_prefix _ [x80; b] af) by (vm_compute; reflexivity).
      rewrite (getUnadjustedFrameLength_field _ [] [] [x80; b] [] [] BigEndian)
        by (cbn [length]; lia).
      cbv zeta. cbn [length]. change (Z.of_nat 2 =? 1) with false.
      change (Z.of_nat 2 =? 2) with true. cbv iota.
      unfold binary.Read_int16. cbn [length Nat.ltb Nat.leb].
      destruct (Uint16_value BigEndian x80 b) as [-> _].
      unfold unsigned_value. cbn [fold_left].
      change (u8 x80) with 128. unfold to_signed.
      change (2 ^ (16 - 1)) with 32768. change (2 ^ 16) with 65536.
      replace ((0 * 256 + 128) * 256 + u8 b + 32768) with (u8 b + 1 * 65536) by lia.
      rewrite Z_mod_plus_full, Z.mod_small by lia. reflexivity.
    + unfold Decode.
      destruct b;
        lazymatch goal with
        | |- context [Buffer.layout _ (?a :: _)] =>
            loop_step [x80; a] af; reflexivity
        end.
Qed.

(** ** C8: the half-packet return *)




(** ** C9: termination of the loop of [Decode] *)

(** C9 (the code departs from it).  The claim: the loop of Decode ends,
    each returned payload having taken at least one byte off the buffer.
    The code: with lengthAdjustment = -2 on a 2-byte field at offset 0 — the
    source's own "length of the whole message" example — and the two bytes
    00 00 buffered, frameLength is 0 - 2 + 2 = 0 and initialBytesToStrip is
    0; decode returns an empty, non-nil slice and leaves the decoder as it
    was, so the loop of Decode appends it and calls decode again, for ever:
    no amount of fuel lets Decode return. *)
Theorem C9_zero_length_frame_never_returns :
  (forall bf af,
      let this := set_in (Buffer.mk bf [x00; x00] af) doc_whole in
      rawLength this = Ret 0
      /\ adjustedFrameLength this 0 = 0
      /\ decode this = (Ret (Some []), this))
  /\ (forall fuel lay, Decode fuel [x00; x00] lay doc_whole = None).
Proof.
  assert (Hstep : forall bf af,
             let this := set_in (Buffer.mk bf [x00; x00] af) doc_whole in
             decode this = (Ret (Some []), this)).
  { intros bf af this. subst this.
    assert (H : decode (set_in (Buffer.mk bf [x00; x00] af) doc_whole)
                = (Ret (Some []),
                   set_in (Buffer.mk ((bf ++ []) ++ []) [x00; x00] af) doc_whole)).
    { eval_raw [x00; x00] af. vm_compute. reflexivity. }
    rewrite !app_nil_r in H. exact H. }
  split.
  - intros bf af this. split; [ | split; [ reflexivity | apply Hstep ] ].
    subst this.
    rewrite (rawLength_prefix _ [x00; x00] af) by (vm_compute; reflexivity).
    reflexivity.
  - intros fuel [bf af]. unfold Decode.
    change (set_in (Buffer.Write [x00; x00] (Buffer.layout bf af) (in_ doc_whole))
              doc_whole)
      with (set_in (Buffer.mk bf [x00; x00] af) doc_whole).
    generalize (@nil (list byte)) as resp.
    induction fuel as [| fuel IH]; intros resp; [ reflexivity | ].
    rewrite Decode_loop_S, Hstep. apply IH.
Qed.

(** ** C10: the sign of the length field *)

(** C10.  For lengthFieldLength 2, 4 and 8 the raw value is the signed
    two's-complement reading of the field's bytes taken in the configured
    order, so it is negative exactly when the top bit of the field's most
    significant byte is set; for lengthFieldLength 1 and 3 it is the
    unsigned composition of the bytes and is never negative.  The field may
    sit at any offset [length pre] of the buffer.  Whenever the decoder is
    configured for that field (lengthFieldOffset [length pre], the field's
    width, byte order [order]) and a field of width 2, 4 or 8 with its top
    bit set lies in the buffer the step reads (the entry buffer, or the one
    the discard pre-check leaves), the step takes the negative-length path:
    it drops the bytes up to the end of the field and panics with the
    negative-length message carrying the negative value.  With width 1 or 3
    no step panics with that message. *)
Theorem C10_length_field_sign_and_negative_path
    (this : EncoderData) (order : ByteOrder) (bf pre post af : list byte)
    (b0 b1 b2 b3 b4 b5 b6 b7 : byte) :
  Z.of_nat (length pre) < 2 ^ 62 ->
  let read field :=
    getUnadjustedFrameLength this (Buffer.mk bf (pre ++ field ++ post) af)
      (Z.of_nat (length pre)) (Z.of_nat (length field)) order in
  let signed field :=
    twos_complement (8 * Z.of_nat (length field)) (unsigned_value order field) in
  let negative_iff_top_bit field :=
    signed field < 0
    <-> Z.testbit (u8 (most_significant order field)) 7 = true in
  let configured field :=
    lengthFieldOffset this = Z.of_nat (length pre)
    /\ lengthFieldLength this = Z.of_nat (length field)
    /\ lengthFieldEndOffset this = Z.of_nat (length pre) + Z.of_nat (length field)
    /\ byteOrder this = order in
  let reads field entry :=
    after_precheck entry = set_in (Buffer.mk bf (pre ++ field ++ post) af) this in
  let negative_path field :=
    configured field ->
    Z.testbit (u8 (most_significant order field)) 7 = true ->
    forall entry, reads field entry ->
      decode entry
      = (Panics (NegativeLengthField (signed field)),
         set_in (Buffer.mk (bf ++ pre ++ field) post af) this) in
  let no_negative_path field :=
    configured field ->
    forall entry, reads field entry ->
      forall n this', decode entry <> (Panics (NegativeLengthField n), this') in
  (read [b0; b1] = Ret (signed [b0; b1])
   /\ negative_iff_top_bit [b0; b1])
  /\ (read [b0; b1; b2; b3] = Ret (signed [b0; b1; b2; b3])
      /\ negative_iff_top_bit [b0; b1; b2; b3])
  /\ (read [b0; b1; b2; b3; b4; b5; b6; b7]
      = Ret (signed [b0; b1; b2; b3; b4; b5; b6; b7])
      /\ negative_iff_top_bit [b0; b1; b2; b3; b4; b5; b6; b7])
  /\ (read [b0] = Ret (unsigned_value order [b0])
      /\ 0 <= unsigned_value order [b0])
  /\ (read [b0; b1; b2] = Ret (unsigned_value order [b0; b1; b2])
      /\ 0 <= unsigned_value order [b0; b1; b2])
  /\ negative_path [b0; b1]
  /\ negative_path [b0; b1; b2; b3]
  /\ negative_path [b0; b1; b2; b3; b4; b5; b6; b7]
  /\ no_negative_path [b0]
  /\ no_negative_path [b0; b1; b2].
Proof.
  intros Hpre read signed negative_iff_top_bit configured reads
    negative_path no_negative_path.
  assert (Hread :
    (read [b0; b1] = Ret (signed [b0; b1])
     /\ negative_iff_top_bit [b0; b1])
    /\ (read [b0; b1; b2; b3] = Ret (signed [b0; b1; b2; b3])
        /\ negative_iff_top_bit [b0; b1; b2; b3])
    /\ (read [b0; b1; b2; b3; b4; b5; b6; b7]
        = Ret (signed [b0; b1; b2; b3; b4; b5; b6; b7])
        /\ negative_iff_top_bit [b0; b1; b2; b3; b4; b5; b6; b7])
    /\ (read [b0] = Ret (unsigned_value order [b0])
        /\ 0 <= unsigned_value order [b0])
    /\ (read [b0; b1; b2] = Ret (unsigned_value order [b0; b1; b2])
        /\ 0 <= unsigned_value order [b0; b1; b2])).
  { subst read signed negative_iff_top_bit. cbv beta.
    repeat match goal with
           | |- context [getUnadjustedFrameLength ?t (Buffer.mk ?b (?p ++ ?f ++ ?q) ?a)
                           ?o (Z.of_nat (length ?f)) ?r] =>
               rewrite (getUnadjustedFrameLength_field t b p f q a r)
                 by (cbn [length]; lia)
           end.
    cbn [length]. cbv zeta.
    change (Z.of_nat 1) with 1. change (Z.of_nat 2) with 2.
    change (Z.of_nat 3) with 3. change (Z.of_nat 4) with 4.
    change (Z.of_nat 8) with 8.
    change (8 * 2) with 16. change (8 * 4) with 32. change (8 * 8) with 64.
    change (1 =? 1) with true. change (2 =? 1) with false.
    change (2 =? 2) with true. change (3 =? 1) with false.
    change (3 =? 2) with false. change (3 =? 3) with true.
    change (4 =? 1) with false. change (4 =? 2) with false.
    change (4 =? 3) with false. change (4 =? 4) with true.
    change (8 =? 1) with false. change (8 =? 2) with false.
    change (8 =? 3) with false. change (8 =? 4) with false.
    change (8 =? 8) with true.
    cbv iota.
    unfold binary.Read_int16, binary.Read_int32, binary.Read_int64.
    cbn [length Nat.ltb Nat.leb].
    destruct (Uint16_value order b0 b1) as [-> H16].
    destruct (Uint32_value order b0 b1 b2 b3) as [-> H32].
    destruct (Uint64_value order b0 b1 b2 b3 b4 b5 b6 b7) as [-> H64].
    destruct (unsigned_value_one order b0) as [-> H8].
    destruct (unsigned_value_three order b0 b1 b2) as [-> H24].
    rewrite !to_signed_twos_complement by lia.
    repeat split; try reflexivity; try lia.
    all: try apply msb_sign16; try apply msb_sign32; try apply msb_sign64.
    all: try (apply (proj1 (msb_sign16 _ _ _)); assumption).
    all: try (apply (proj1 (msb_sign32 _ _ _ _ _)); assumption).
    all: try (apply (proj1 (msb_sign64 _ _ _ _ _ _ _ _ _)); assumption). }
  destruct Hread as ((R2 & S2) & (R4 & S4) & (R8 & S8) & (R1 & U1) & (R3 & U3)).
  assert (Hneg : forall field,
             read field = Ret (signed field) ->
             negative_iff_top_bit field ->
             negative_path field).
  { intros field Hr Hs (Hoff & Hlen & Hend & Hord) Hbit entry Hentry.
    subst reads. cbv beta in Hentry.
    assert (Hraw : rawLength (after_precheck entry) = Ret (signed field)).
    { rewrite Hentry, rawLength_field by assumption. rewrite Hord. exact Hr. }
    rewrite (decode_negative_raw entry (signed field)); try assumption.
    - rewrite Hentry. cbn [in_ set_in lengthFieldEndOffset Buffer.before
        Buffer.unread Buffer.after]. rewrite Hend.
      rewrite <- Nat2Z.inj_add, Nat2Z.id.
      destruct (firstn_field pre field post) as [-> ->]. reflexivity.
    - rewrite Hentry. cbn [in_ set_in lengthFieldOffset]. rewrite Hoff.
      unfold Buffer.Len. cbn [Buffer.unread]. rewrite length_app. lia.
    - apply Hs. exact Hbit.
    - rewrite Hentry. cbn [set_in lengthFieldEndOffset]. lia. }
  assert (Hnon : forall field v,
             read field = Ret v -> 0 <= v -> no_negative_path field).
  { intros field v Hr Hv (Hoff & Hlen & Hend & Hord) entry Hentry n this' Hd.
    subst reads. cbv beta in Hentry.
    destruct (decode_negative_inv entry n this' Hd) as [Hraw Hn].
    rewrite Hentry, rawLength_field in Hraw by assumption.
    rewrite Hord in Hraw. subst read. cbv beta in Hr. rewrite Hr in Hraw.
    injection Hraw as <-. lia. }
  repeat split; try assumption.
  - apply S2; assumption.
  - apply S2; assumption.
  - apply S4; assumption.
  - apply S4; assumption.
  - apply S8; assumption.
  - apply S8; assumption.
  - apply Hneg; assumption.
  - apply Hneg; assumption.
  - apply Hneg; assumption.
  - exact (Hnon _ _ R1 U1).
  - exact (Hnon _ _ R3 U3).
Qed.

Lemma C10_length_field_sign_and_negative_path_witness :
  getUnadjustedFrameLength doc_plain (Buffer.mk [] [x80; x00; x41] []) 0 2 BigEndian
  = Ret (-32768)
  /\ Z.testbit (u8 x80) 7 = true
  /\ decode negative_field
     = (Panics (NegativeLengthField (-32768)),
        set_in (Buffer.mk [x80; x00] [x41] []) doc_plain).
Proof.
  pose (H := C10_length_field_sign_and_negative_path doc_plain BigEndian
               [] [] [x41] []
               x80 x00 x00 x00 x00 x00 x00 x00
               ltac:(vm_compute; reflexivity)).
  split; [ exact (proj1 (proj1 H)) | split; [ reflexivity | ] ].
  refine (proj1 (proj2 (proj2 (proj2 (proj2 (proj2 H))))) _ _ negative_field _).
  - repeat split; reflexivity.
  - reflexivity.
  - reflexivity.
Defined.

(** * Further properties of the code *)

(** ** The extraction step, both ways *)

Lemma wrap64_high z : 2 ^ 63 <= z < 2 ^ 63 + 2 ^ 64 -> wrap64 z = z - 2 ^ 64.
Proof.
  intros H. unfold wrap64.
  replace (z + 2 ^ 63) with ((z - 2 ^ 63) + 1 * 2 ^ 64) by lia.
  rewrite Z_mod_plus_full, Z.mod_small; lia.
Qed.

Lemma to_signed_range w u : 0 < w -> - 2 ^ (w - 1) <= to_signed w u < 2 ^ (w - 1).
Proof.
  intros Hw. unfold to_signed.
  assert (Hp : 2 ^ w = 2 * 2 ^ (w - 1)).
  { rewrite <- Z.pow_succ_r by lia. f_equal. lia. }
  assert (Hpos : 0 < 2 ^ (w - 1)) by (apply Z.pow_pos_nonneg; lia).
  pose proof (Z.mod_pos_bound (u + 2 ^ (w - 1)) (2 ^ w) ltac:(lia)). lia.
Qed.

Lemma Ret_inj {A} (a b : A) : Ret a = Ret b -> a = b.
Proof. intros H. injection H as H. exact H. Qed.

(** Whatever it reads, [getUnadjustedFrameLength] returns a value of the
    width it read, hence an [int64]. *)
Lemma getUnadjustedFrameLength_range this buf off len order raw :
  getUnadjustedFrameLength this buf off len order = Ret raw ->
  - 2 ^ 63 <= raw < 2 ^ 63.
Proof.
  unfold getUnadjustedFrameLength.
  destruct (Buffer.reslice _ _ _) as [arr |]; [ | discriminate ].
  unfold binary.Read_uint8, binary.Read_int16, binary.Read_int32,
    binary.Read_int64, binary.nthb.
  destruct (len =? 1); [ | destruct (len =? 2); [ | destruct (len =? 3);
    [ | destruct (len =? 4); [ | destruct (len =? 8); [ | discriminate ] ] ] ] ].
  - destruct (_ <? _)%nat; intros [= <-]; bytes_in_range; lia.
  - pose proof (to_signed_range 16 (binary.Uint16 order (Buffer.elems arr))).
    destruct (_ <? _)%nat; intros [= <-]; lia.
  - destruct order; intros H; apply Ret_inj in H; subst raw;
      bytes_in_range; lor_to_sum; lia.
  - pose proof (to_signed_range 32 (binary.Uint32 order (Buffer.elems arr))).
    destruct (_ <? _)%nat; intros [= <-]; lia.
  - pose proof (to_signed_range 64 (binary.Uint64 order (Buffer.elems arr))).
    destruct (_ <? _)%nat; intros [= <-]; lia.
Qed.

(** The extraction step with the state it leaves: every field but the
    buffer is as the discard pre-check left it. *)
Lemma decode_frame_step this raw :
  let s := after_precheck this in
  let frameLength := adjustedFrameLength s raw in
  let strip := initialBytesToStrip s in
  extracts s raw ->
  exists this',
    decode this
    = (Ret (Some (firstn (Z.to_nat (frameLength - strip))
                    (skipn (Z.to_nat strip) (Buffer.unread (in_ s))))),
       this')
    /\ Buffer.unread (in_ this')
       = skipn (Z.to_nat frameLength) (Buffer.unread (in_ s))
    /\ this' = set_in (in_ this') s.
Proof.
  intros s frameLength strip (Hoff & Hraw & Hnonneg & Hmax & Hlen & Hstrip).
  fold frameLength in Hmax, Hlen, Hstrip. fold strip in Hstrip.
  assert (Hfl : - 2 ^ 63 <= frameLength < 2 ^ 63) by apply wrap64_range.
  rewrite decode_precheck. fold s. cbv zeta.
  destruct (Z.ltb_spec (Buffer.Len (in_ s)) (lengthFieldOffset s)); [ lia | ].
  rewrite Hraw.
  destruct (Z.ltb_spec raw 0) as [? | _]; [ lia | ].
  unfold bind at 1. unfold ret at 1. fold frameLength. fold strip.
  destruct (Z.gtb_spec frameLength (maxFrameLength s)) as [? | _]; [ lia | ].
  destruct (Z.ltb_spec (Buffer.Len (in_ s)) frameLength) as [? | _]; [ lia | ].
  destruct (Z.gtb_spec strip frameLength) as [? | _]; [ lia | ].
  unfold bind at 1. unfold ret at 1.
  unfold bind at 1. rewrite in_Next_eq by lia.
  rewrite wrap64_small by lia.
  unfold bind at 1. unfold make_bytes.
  destruct (Z.ltb_spec (frameLength - strip) 0) as [? | _]; [ lia | ].
  unfold ret at 1. unfold bind at 1. unfold in_Read.
  cbn [in_ set_in].
  match goal with
  | |- context [Buffer.Read ?p ?b] =>
      destruct (Read_full p b) as [Hp Hb];
      [ | destruct (Buffer.Read p b) as [p' b'] ]
  end.
  - cbn [Buffer.unread]. rewrite repeat_length, length_skipn.
    unfold Buffer.Len in Hlen. lia.
  - cbn [fst snd] in Hp, Hb. unfold ret.
    rewrite repeat_length in Hp, Hb. cbn [Buffer.unread] in Hp, Hb.
    eexists. split; [ | split ].
    + rewrite Hp. reflexivity.
    + cbn [in_ set_in]. rewrite Hb, skipn_skipn. f_equal. lia.
    + reflexivity.
Qed.

Lemma in_Next_negative n this : n < 0 -> in_Next n this = (Panics SliceBounds, this).
Proof.
  intros Hn. unfold in_Next, Buffer.Next.
  destruct (Z.ltb_spec n 0); [ reflexivity | lia ].
Qed.

Lemma in_Next_cases n this :
  (n < 0 /\ in_Next n this = (Panics SliceBounds, this))
  \/ (0 <= n /\ exists b, in_Next n this = (Ret tt, set_in b this)).
Proof.
  destruct (Z.lt_ge_cases n 0) as [Hn | Hn].
  - left. split; [ assumption | apply in_Next_negative; assumption ].
  - right. split; [ assumption | ]. eexists. apply in_Next_eq. assumption.
Qed.

Lemma failOnNegativeLengthField_panics n e this :
  exists p this', failOnNegativeLengthField n e this = (Panics p, this').
Proof.
  unfold failOnNegativeLengthField, bind.
  destruct (in_Next_cases e this) as [[_ ->] | [_ [b ->]]]; unfold raise; eauto.
Qed.

Lemma failOnFrameLengthLessThanInitialBytesToStrip_panics n e this :
  exists p this',
    failOnFrameLengthLessThanInitialBytesToStrip n e this = (Panics p, this').
Proof.
  unfold failOnFrameLengthLessThanInitialBytesToStrip, bind.
  destruct (in_Next_cases n this) as [[_ ->] | [_ [b ->]]]; unfold raise; eauto.
Qed.

(** [decode] returns a payload only by the extraction step. *)
Lemma decode_Some_extracts this p this' :
  decode this = (Ret (Some p), this') ->
  exists raw, extracts (after_precheck this) raw.
Proof.
  rewrite decode_precheck. cbv zeta.
  set (s := after_precheck this).
  destruct (Z.ltb_spec (Buffer.Len (in_ s)) (lengthFieldOffset s)) as [? | Hoff];
    [ discriminate | ].
  destruct (rawLength s) as [raw | q] eqn:Hraw; [ | discriminate ].
  unfold bind at 1.
  destruct (Z.ltb_spec raw 0) as [Hneg | Hnonneg].
  { destruct (failOnNegativeLengthField_panics raw (lengthFieldEndOffset s) s)
      as (q & s' & ->). discriminate. }
  unfold ret at 1.
  destruct (Z.gtb_spec (adjustedFrameLength s raw) (maxFrameLength s)) as [? | Hmax].
  { unfold bind at 1.
    destruct (exceededFrameLength (adjustedFrameLength s raw) s) as [[[] | q] s'];
      discriminate. }
  destruct (Z.ltb_spec (Buffer.Len (in_ s)) (adjustedFrameLength s raw)) as [? | Hlen];
    [ discriminate | ].
  unfold bind at 1.
  destruct (Z.gtb_spec (initialBytesToStrip s) (adjustedFrameLength s raw))
    as [? | Hstrip].
  { destruct (failOnFrameLengthLessThanInitialBytesToStrip_panics
                (adjustedFrameLength s raw) (initialBytesToStrip s) s)
      as (q & s' & ->). discriminate. }
  unfold ret at 1. unfold bind at 1.
  destruct (in_Next_cases (initialBytesToStrip s) s) as [[_ ->] | [Hpos _]];
    [ discriminate | ].
  intros _. exists raw. repeat split; assumption.
Qed.

(** ** Bytes leave the buffer from the front only *)

Section DropsFront.

Context {A B : Type}.

Lemma drops_ret (a : A) : drops_front (ret a).
Proof. intros this. exists 0%nat. split; reflexivity. Qed.

Lemma drops_raise (p : panic) : drops_front (@raise A p).
Proof. intros this. exists 0%nat. split; reflexivity. Qed.

Lemma drops_bind (c : M A) (k : A -> M B) :
  drops_front c -> (forall a, drops_front (k a)) -> drops_front (bind c k).
Proof.
  intros Hc Hk this. unfold bind.
  destruct (Hc this) as (n & Hn & Hr). destruct (c this) as [[a | p] this'].
  - destruct (Hk a this') as (m & Hm & Hr'). exists (n + m)%nat.
    cbn [snd] in Hn, Hr. split.
    + rewrite Hm, Hn, skipn_skipn. f_equal. lia.
    + intros Hne. rewrite (Hr' Hne). apply Hr.
      intros Hnil. apply Hne. rewrite Hm, Hnil. apply skipn_nil.
  - exists n. split; assumption.
Qed.

Lemma drops_if (b : bool) (c1 c2 : M A) :
  drops_front c1 -> drops_front c2 -> drops_front (if b then c1 else c2).
Proof. destruct b; auto. Qed.

End DropsFront.

Lemma drops_get : drops_front get.
Proof. intros this. exists 0%nat. split; reflexivity. Qed.

Lemma drops_modify (f : EncoderData -> EncoderData) :
  (forall d, in_ (f d) = in_ d) -> drops_front (modify f).
Proof.
  intros Hf this. exists 0%nat. cbn [modify snd]. rewrite Hf. split; reflexivity.
Qed.

Lemma drops_in_Next n : drops_front (in_Next n).
Proof.
  intros this. destruct (in_Next_cases n this) as [[_ ->] | [Hn _]].
  - exists 0%nat. split; reflexivity.
  - rewrite in_Next_eq by assumption. exists (Z.to_nat n). split; reflexivity.
Qed.

Lemma drops_in_Read buff : drops_front (in_Read buff).
Proof.
  intros this. unfold in_Read, Buffer.Read.
  destruct (Buffer.unread (in_ this)) as [| x u] eqn:Hu.
  - exists 0%nat. cbn [snd in_ set_in Buffer.Reset Buffer.unread].
    split; [ reflexivity | intros H; contradiction H; reflexivity ].
  - eexists. cbn [snd in_ set_in Buffer.unread Buffer.after].
    split; reflexivity.
Qed.

Lemma drops_make_bytes n : drops_front (make_bytes n).
Proof. unfold make_bytes. apply drops_if; [ apply drops_raise | apply drops_ret ]. Qed.

Create HintDb drops discriminated.
#[local] Hint Resolve drops_ret drops_raise drops_get drops_in_Next drops_in_Read
  drops_make_bytes : drops.
#[local] Hint Extern 1 (drops_front (bind _ _)) => apply drops_bind; [ | intros ] : drops.
#[local] Hint Extern 1 (drops_front (if _ then _ else _)) => apply drops_if : drops.
#[local] Hint Extern 1 (drops_front (modify _)) =>
  apply drops_modify; intros; reflexivity : drops.

Lemma drops_failIfNecessary first : drops_front (failIfNecessary first).
Proof. unfold failIfNecessary, fail. auto 10 with drops. Qed.
#[local] Hint Resolve drops_failIfNecessary : drops.

Lemma drops_discardingTooLongFrameFunc : drops_front discardingTooLongFrameFunc.
Proof. unfold discardingTooLongFrameFunc. auto 10 with drops. Qed.
#[local] Hint Resolve drops_discardingTooLongFrameFunc : drops.

Lemma drops_exceededFrameLength n : drops_front (exceededFrameLength n).
Proof. unfold exceededFrameLength. auto 12 with drops. Qed.

Lemma drops_failOnNegativeLengthField n e :
  drops_front (failOnNegativeLengthField n e).
Proof. unfold failOnNegativeLengthField. auto with drops. Qed.

Lemma drops_failOnFrameLengthLessThanInitialBytesToStrip n e :
  drops_front (failOnFrameLengthLessThanInitialBytesToStrip n e).
Proof. unfold failOnFrameLengthLessThanInitialBytesToStrip. auto with drops. Qed.
#[local] Hint Resolve drops_exceededFrameLength drops_failOnNegativeLengthField
  drops_failOnFrameLengthLessThanInitialBytesToStrip : drops.

Lemma drops_decode : drops_front decode.
Proof.
  unfold decode.
  apply drops_bind; [ auto with drops | intros this0 ].
  apply drops_bind; [ auto with drops | intros _ ].
  apply drops_bind; [ auto with drops | intros this1 ].
  apply drops_if; [ auto with drops | ].
  apply drops_bind; [ intros s; exists 0%nat; split; reflexivity | intros raw ].
  apply drops_bind; [ auto with drops | intros _ ].
  cbv zeta. auto 20 with drops.
Qed.

Lemma Decode_loop_suffix fuel resp this o this' :
  Decode_loop fuel resp this = Some (o, this') ->
  exists k, Buffer.unread (in_ this') = skipn k (Buffer.unread (in_ this)).
Proof.
  revert resp this. induction fuel as [| fuel IH]; intros resp this H;
    [ discriminate | ].
  rewrite Decode_loop_S in H. destruct (drops_decode this) as (n & Hn & _).
  destruct (decode this) as [[[arr |] | p] s]; cbn [snd] in Hn.
  - destruct (IH _ _ H) as [m Hm]. exists (n + m)%nat.
    rewrite Hm, Hn, skipn_skipn. f_equal. lia.
  - injection H as _ <-. eauto.
  - injection H as _ <-. eauto.
Qed.

(** X1. Bytes leave the accumulation buffer from its front only, and
    nothing is put back: whatever a decode step does (return a payload,
    wait, drop an oversized frame, panic), the bytes it leaves buffered
    are a suffix of the bytes it found; and whenever Decode ends, with a
    list or with a panic, the bytes left are a suffix of the bytes that
    were pending followed by the chunk. *)
Theorem buffer_is_consumed_from_the_front :
  (forall this, exists k,
      Buffer.unread (in_ (snd (decode this)))
      = skipn k (Buffer.unread (in_ this)))
  /\ (forall fuel buff lay this,
         match Decode fuel buff lay this with
         | Some (_, this') =>
             exists k,
               Buffer.unread (in_ this')
               = skipn k (Buffer.unread (in_ this) ++ buff)
         | None => True
         end).
Proof.
  split.
  - intros this. destruct (drops_decode this) as (k & Hk & _). eauto.
  - intros fuel buff lay this.
    destruct (Decode fuel buff lay this) as [[o this'] |] eqn:H; [ | exact I ].
    unfold Decode in H. apply Decode_loop_suffix in H. exact H.
Qed.

(** ** Termination of the loop of [Decode] *)

Lemma after_precheck_Len this :
  Buffer.Len (in_ (after_precheck this)) <= Buffer.Len (in_ this).
Proof.
  unfold after_precheck. destruct (discardingTooLongFrame this); [ | lia ].
  destruct (drops_discardingTooLongFrameFunc this) as (k & Hk & _).
  unfold Buffer.Len. rewrite Hk, length_skipn. lia.
Qed.

Lemma progresses_config d d' : config d' = config d -> progresses d' = progresses d.
Proof.
  unfold config, progresses. intros H.
  injection H as _ _ _ _ Hend Hadj Hstrip _. rewrite Hend, Hadj, Hstrip. reflexivity.
Qed.

Lemma progresses_frameLength s raw :
  progresses s = true ->
  0 <= raw < 2 ^ 63 ->
  0 <= initialBytesToStrip s <= adjustedFrameLength s raw ->
  1 <= adjustedFrameLength s raw.
Proof.
  unfold progresses, adjustedFrameLength. intros Hp Hraw Hstrip.
  apply orb_prop in Hp. destruct Hp as [Hp | Hp].
  - apply Z.ltb_lt in Hp. lia.
  - apply andb_prop in Hp. destruct Hp as [H1 H2].
    apply Z.ltb_lt in H1, H2.
    rewrite (wrap64_small (lengthAdjustment s + lengthFieldEndOffset s)) in * by lia.
    destruct (Z.lt_ge_cases (raw + (lengthAdjustment s + lengthFieldEndOffset s)) (2 ^ 63)).
    + rewrite wrap64_small in * by lia. lia.
    + rewrite wrap64_high in Hstrip by lia. lia.
Qed.

(** Under a configuration that progresses, a step that returns a payload
    leaves strictly fewer bytes buffered. *)
Lemma decode_Some_shrinks this p this' :
  progresses this = true ->
  decode this = (Ret (Some p), this') ->
  Buffer.Len (in_ this') < Buffer.Len (in_ this).
Proof.
  intros Hp H. destruct (decode_Some_extracts _ _ _ H) as [raw Hex].
  destruct (decode_frame_step this raw Hex) as (s' & Hs' & Hbuf & _).
  rewrite H in Hs'. injection Hs' as _ <-.
  destruct Hex as (Hoff & Hraw & Hnonneg & Hmax & Hlen & Hstrip).
  pose proof (after_precheck_Len this) as Hle.
  pose proof (getUnadjustedFrameLength_range _ _ _ _ _ _ Hraw) as Hrange.
  assert (Hfl : 1 <= adjustedFrameLength (after_precheck this) raw).
  { apply progresses_frameLength; try assumption; try lia.
    rewrite (progresses_config this) by apply after_precheck_config. exact Hp. }
  unfold Buffer.Len in *. rewrite Hbuf, length_skipn. lia.
Qed.

Lemma Decode_loop_returns fuel resp this :
  progresses this = true ->
  (length (Buffer.unread (in_ this)) < fuel)%nat ->
  exists r, Decode_loop fuel resp this = Some r.
Proof.
  revert resp this. induction fuel as [| fuel IH]; intros resp this Hp Hlen;
    [ lia | ].
  rewrite Decode_loop_S.
  destruct (decode this) as [[[arr |] | p] s] eqn:Hd; [ | eauto | eauto ].
  apply IH.
  - rewrite (progresses_config this); [ exact Hp | ].
    pose proof (keeps_decode this) as Hk. rewrite Hd in Hk. exact Hk.
  - pose proof (decode_Some_shrinks _ _ _ Hp Hd) as Hs. unfold Buffer.Len in Hs. lia.
Qed.

Lemma Decode_loop_more_fuel fuel k resp this r :
  Decode_loop fuel resp this = Some r -> Decode_loop (fuel + k) resp this = Some r.
Proof.
  revert resp this. induction fuel as [| fuel IH]; intros resp this H;
    [ discriminate | ].
  cbn [Nat.add]. rewrite Decode_loop_S in *.
  destruct (decode this) as [[[arr |] | p] s]; auto.
Qed.

(** X2. Decode returns when the configuration makes every frame take
    bytes: if initialBytesToStrip is positive, or lengthAdjustment +
    lengthFieldEndOffset is positive (and below 2^62), then Decode ends,
    with a list or a panic, after at most one decode step per buffered
    byte plus one, whatever the bytes are and in or out of discarding
    mode; more fuel gives the same result. *)
Theorem Decode_returns_when_frames_progress fuel buff lay this :
  progresses this = true ->
  (length (Buffer.unread (in_ this) ++ buff) < fuel)%nat ->
  exists o this',
    Decode fuel buff lay this = Some (o, this')
    /\ forall k, Decode (fuel + k) buff lay this = Some (o, this').
Proof.
  intros Hp Hlen. unfold Decode.
  destruct (Decode_loop_returns fuel []
              (set_in (Buffer.Write buff lay (in_ this)) this)) as [[o this'] Hr].
  - exact Hp.
  - exact Hlen.
  - exists o, this'. split; [ exact Hr | ].
    intros k. apply Decode_loop_more_fuel. exact Hr.
Qed.

Lemma Decode_returns_when_frames_progress_witness :
  exists o this',
    Decode 15 hello_frame (Buffer.fresh 2) doc_plain = Some (o, this')
    /\ forall k, Decode (15 + k) hello_frame (Buffer.fresh 2) doc_plain
                 = Some (o, this').
Proof.
  apply (Decode_returns_when_frames_progress 15 hello_frame (Buffer.fresh 2) doc_plain).
  - reflexivity.
  - vm_compute. lia.
Defined.

(** ** Errors and edges of one step *)

Lemma reslice_in_range (s : Buffer.slice) lo hi :
  0 <= lo <= hi ->
  hi <= Z.of_nat (length (Buffer.elems s ++ Buffer.room s)) ->
  exists arr, Buffer.reslice s lo hi = Some arr.
Proof.
  intros Hlo Hhi. unfold Buffer.reslice.
  destruct (Z.leb_spec 0 lo); [ | lia ].
  destruct (Z.leb_spec lo hi); [ | lia ].
  destruct (Z.leb_spec hi (Z.of_nat (length (Buffer.elems s ++ Buffer.room s))));
    [ | lia ].
  cbn [andb]. eauto.
Qed.

(** X3. A lengthFieldLength other than 1, 2, 3, 4 or 8 is only found
    out when a length field is read: with lengthFieldOffset bytes
    buffered and the field within the backing array, the step panics with
    the unsupported-lengthFieldLength message carrying the configured
    width, and leaves the buffer and the state as the discard pre-check
    left them. *)
Theorem unsupported_lengthFieldLength_panics_without_consuming this :
  let s := after_precheck this in
  supported_width (lengthFieldLength s) = false ->
  0 <= lengthFieldOffset s <= Buffer.Len (in_ s) ->
  0 <= lengthFieldLength s ->
  lengthFieldOffset s + lengthFieldLength s
  <= Buffer.Len (in_ s) + Z.of_nat (length (Buffer.after (in_ s))) ->
  lengthFieldOffset s + lengthFieldLength s < 2 ^ 63 ->
  decode this = (Panics (UnsupportedLengthFieldLength (lengthFieldLength s)), s).
Proof.
  intros s Hw Hoff Hlen Hcap Hfit.
  rewrite decode_precheck. fold s. cbv zeta.
  destruct (Z.ltb_spec (Buffer.Len (in_ s)) (lengthFieldOffset s)); [ lia | ].
  unfold rawLength, getUnadjustedFrameLength.
  rewrite wrap64_small by lia.
  destruct (reslice_in_range (Buffer.Bytes (in_ s)) (lengthFieldOffset s)
              (lengthFieldOffset s + lengthFieldLength s)) as [arr ->].
  - lia.
  - unfold Buffer.Bytes. cbn [Buffer.elems Buffer.room]. rewrite length_app.
    unfold Buffer.Len in Hcap. lia.
  - unfold supported_width in Hw.
    repeat (apply orb_false_elim in Hw; destruct Hw as [Hw ?]).
    repeat match goal with H : (_ =? _) = false |- _ => rewrite H; clear H end.
    reflexivity.
Qed.

Lemma unsupported_lengthFieldLength_panics_without_consuming_witness :
  let this := set_in (Buffer.mk [] hello_frame [])
                (NewLengthFieldFrameDecoder 1024 0 5 0 0) in
  decode this = (Panics (UnsupportedLengthFieldLength 5), this).
Proof.
  apply (unsupported_lengthFieldLength_panics_without_consuming
           (set_in (Buffer.mk [] hello_frame [])
              (NewLengthFieldFrameDecoder 1024 0 5 0 0)));
    vm_compute; solve [ reflexivity | split; discriminate | discriminate ].
Defined.

(** X4. When the frame length (not negative, within maxFrameLength and
    within the buffered bytes) is less than initialBytesToStrip, the step
    takes the whole frame off the buffer, then panics with the message
    carrying the frame length and initialBytesToStrip; every other field
    is as the discard pre-check left it. *)
Theorem strip_beyond_frame_drops_frame_then_panics this raw :
  let s := after_precheck this in
  let frameLength := adjustedFrameLength s raw in
  lengthFieldOffset s <= Buffer.Len (in_ s) ->
  rawLength s = Ret raw ->
  0 <= raw ->
  0 <= frameLength <= maxFrameLength s ->
  frameLength <= Buffer.Len (in_ s) ->
  frameLength < initialBytesToStrip s ->
  exists this',
    decode this
    = (Panics (FrameLengthLessThanInitialBytesToStrip
                 frameLength (initialBytesToStrip s)), this')
    /\ Buffer.unread (in_ this')
       = skipn (Z.to_nat frameLength) (Buffer.unread (in_ s))
    /\ this' = set_in (in_ this') s.
Proof.
  intros s frameLength Hoff Hraw Hnonneg Hmax Hlen Hstrip.
  rewrite decode_precheck. fold s. cbv zeta.
  destruct (Z.ltb_spec (Buffer.Len (in_ s)) (lengthFieldOffset s)); [ lia | ].
  rewrite Hraw.
  destruct (Z.ltb_spec raw 0) as [? | _]; [ lia | ].
  unfold bind at 1. unfold ret at 1. fold frameLength.
  destruct (Z.gtb_spec frameLength (maxFrameLength s)) as [? | _]; [ lia | ].
  destruct (Z.ltb_spec (Buffer.Len (in_ s)) frameLength) as [? | _]; [ lia | ].
  destruct (Z.gtb_spec (initialBytesToStrip s) frameLength) as [_ | ?]; [ | lia ].
  unfold bind at 1. unfold failOnFrameLengthLessThanInitialBytesToStrip.
  unfold bind at 1. rewrite in_Next_eq by lia. unfold raise.
  eexists. split; [ reflexivity | split; reflexivity ].
Qed.

Lemma strip_beyond_frame_drops_frame_then_panics_witness :
  let this := set_in (Buffer.mk [] [x00; x01; x41; x42] [])
                (NewLengthFieldFrameDecoder 1024 0 2 0 5) in
  exists this',
    decode this = (Panics (FrameLengthLessThanInitialBytesToStrip 3 5), this')
    /\ Buffer.unread (in_ this') = [x42]
    /\ this' = set_in (in_ this') this.
Proof.
  apply (strip_beyond_frame_drops_frame_then_panics
           (set_in (Buffer.mk [] [x00; x01; x41; x42] [])
              (NewLengthFieldFrameDecoder 1024 0 2 0 5)) 1);
    vm_compute; solve [ reflexivity | split; discriminate | discriminate ].
Defined.

Lemma decode_negative_frameLength this raw :
  let s := after_precheck this in
  let frameLength := adjustedFrameLength s raw in
  lengthFieldOffset s <= Buffer.Len (in_ s) ->
  rawLength s = Ret raw ->
  0 <= raw ->
  frameLength < 0 ->
  frameLength <= maxFrameLength s ->
  decode this = (Panics SliceBounds, s).
Proof.
  intros s frameLength Hoff Hraw Hnonneg Hneg Hmax.
  rewrite decode_precheck. fold s. cbv zeta.
  destruct (Z.ltb_spec (Buffer.Len (in_ s)) (lengthFieldOffset s)); [ lia | ].
  rewrite Hraw.
  destruct (Z.ltb_spec raw 0) as [? | _]; [ lia | ].
  unfold bind at 1. unfold ret at 1. fold frameLength.
  destruct (Z.gtb_spec frameLength (maxFrameLength s)) as [? | _]; [ lia | ].
  destruct (Z.ltb_spec (Buffer.Len (in_ s)) frameLength) as [? | _];
    [ unfold Buffer.Len in *; lia | ].
  unfold bind at 1.
  destruct (Z.gtb_spec (initialBytesToStrip s) frameLength) as [Hgt | Hle].
  - unfold failOnFrameLengthLessThanInitialBytesToStrip. unfold bind at 1.
    rewrite in_Next_negative by assumption. reflexivity.
  - unfold ret at 1. unfold bind at 1.
    rewrite in_Next_negative by lia. reflexivity.
Qed.

(** X5. A frame length that the adjustment makes negative (the raw
    length is not negative) is not caught by any of the decoder's own
    checks: the step panics inside Buffer.Next on its slice expression,
    with nothing consumed. *)
Theorem negative_frameLength_panics_on_the_slice this raw :
  let s := after_precheck this in
  let frameLength := adjustedFrameLength s raw in
  lengthFieldOffset s <= Buffer.Len (in_ s) ->
  rawLength s = Ret raw ->
  0 <= raw ->
  frameLength < 0 ->
  frameLength <= maxFrameLength s ->
  decode this = (Panics SliceBounds, s).
Proof. exact (decode_negative_frameLength this raw). Qed.

Lemma negative_frameLength_panics_on_the_slice_witness :
  let this := set_in (Buffer.mk [] [x00; x01; x41; x42] [])
                (NewLengthFieldFrameDecoder 1024 0 2 (-5) 0) in
  decode this = (Panics SliceBounds, this).
Proof.
  apply (negative_frameLength_panics_on_the_slice
           (set_in (Buffer.mk [] [x00; x01; x41; x42] [])
              (NewLengthFieldFrameDecoder 1024 0 2 (-5) 0)) 1);
    vm_compute; solve [ reflexivity | split; discriminate | discriminate ].
Defined.

(** ** A frame longer than [maxFrameLength] *)

(** X6. A frame longer than maxFrameLength with more than the whole
    frame buffered.  From the state in which the length field is read
    (the entry state, or the one the discard pre-check leaves), the step
    drops exactly frameLength bytes, returns no payload, leaves
    bytesToDiscard as it was, and leaves discarding mode off when
    bytesToDiscard is 0 (it is unchanged otherwise); the configuration
    is kept. *)
Theorem oversized_frame_in_buffer_is_dropped_at_once this raw :
  let s := after_precheck this in
  let frameLength := adjustedFrameLength s raw in
  lengthFieldOffset s <= Buffer.Len (in_ s) ->
  rawLength s = Ret raw ->
  0 <= raw ->
  0 <= maxFrameLength s < frameLength ->
  frameLength < Buffer.Len (in_ s) < 2 ^ 63 ->
  exists this',
    decode this = (Ret None, this')
    /\ Buffer.unread (in_ this')
       = skipn (Z.to_nat frameLength) (Buffer.unread (in_ s))
    /\ bytesToDiscard this' = bytesToDiscard s
    /\ discardingTooLongFrame this'
       = (if bytesToDiscard s =? 0 then false else discardingTooLongFrame s)
    /\ config this' = config this.
Proof.
  intros s frameLength Hoff Hraw Hnonneg Hlong Hlen.
  rewrite (decode_exceeds this raw) by (fold s; fold frameLength; lia || assumption).
  fold s. fold frameLength.
  unfold bind at 1. unfold exceededFrameLength.
  unfold bind at 1. unfold get at 1.
  unfold bind at 1. unfold modify at 1.
  rewrite wrap64_small by (cbn [in_ set_tooLongFrameLength]; lia).
  destruct (Z.ltb_spec (frameLength - Buffer.Len (in_ s)) 0) as [_ | ?]; [ | lia ].
  unfold bind at 1. rewrite in_Next_eq by lia.
  rewrite failIfNecessary_eq. unfold ret.
  eexists. split; [ reflexivity | ].
  cbn [in_ set_in set_tooLongFrameLength bytesToDiscard].
  destruct (bytesToDiscard s =? 0);
    (repeat split; try reflexivity; apply after_precheck_config).
Qed.

Lemma oversized_frame_in_buffer_is_dropped_at_once_witness :
  let this := set_in (Buffer.mk [] ([xaa; x0a] ++ repeat x01 10 ++ good_frame) []) tiny in
  exists this',
    decode this = (Ret None, this')
    /\ Buffer.unread (in_ this') = good_frame
    /\ bytesToDiscard this' = 0
    /\ discardingTooLongFrame this' = false
    /\ config this' = config this.
Proof.
  apply (oversized_frame_in_buffer_is_dropped_at_once
           (set_in (Buffer.mk [] ([xaa; x0a] ++ repeat x01 10 ++ good_frame) []) tiny)
           10);
    vm_compute;
    solve [ reflexivity | discriminate | split; reflexivity
          | split; [ discriminate | reflexivity ] ].
Defined.

(** X7. A frame longer than maxFrameLength with at most the whole frame
    buffered, in the state in which the length field is read (the entry
    state, or the one the discard pre-check leaves): the step empties
    the buffer, returns no payload and sets bytesToDiscard to the part of
    the frame still to come; discarding mode is on, with
    tooLongFrameLength the frame length, unless nothing is to come, in
    which case both are cleared. *)
Theorem oversized_frame_cut_short_starts_a_discard this raw :
  let s := after_precheck this in
  let frameLength := adjustedFrameLength s raw in
  lengthFieldOffset s <= Buffer.Len (in_ s) ->
  rawLength s = Ret raw ->
  0 <= raw ->
  maxFrameLength s < frameLength ->
  Buffer.Len (in_ s) <= frameLength ->
  exists this',
    decode this = (Ret None, this')
    /\ Buffer.unread (in_ this') = []
    /\ bytesToDiscard this' = frameLength - Buffer.Len (in_ s)
    /\ discardingTooLongFrame this'
       = negb (frameLength - Buffer.Len (in_ s) =? 0)
    /\ tooLongFrameLength this'
       = (if frameLength - Buffer.Len (in_ s) =? 0 then 0 else frameLength)
    /\ config this' = config this.
Proof.
  intros s frameLength Hoff Hraw Hnonneg Hlong Hlen.
  assert (Hfl : - 2 ^ 63 <= frameLength < 2 ^ 63) by apply wrap64_range.
  assert (Hpos : 0 <= Buffer.Len (in_ s)) by (unfold Buffer.Len; lia).
  rewrite (decode_exceeds this raw) by (fold s; fold frameLength; lia || assumption).
  fold s. fold frameLength.
  unfold bind at 1. unfold exceededFrameLength.
  unfold bind at 1. unfold get at 1.
  unfold bind at 1. unfold modify at 1.
  rewrite wrap64_small by lia.
  destruct (Z.ltb_spec (frameLength - Buffer.Len (in_ s)) 0) as [? | _]; [ lia | ].
  unfold bind at 1. unfold bind at 1. unfold modify at 1.
  unfold bind at 1. unfold modify at 1.
  unfold bind at 1. unfold get at 1.
  rewrite in_Next_eq by (cbn [in_ set_bytesToDiscard set_discardingTooLongFrame
                              set_tooLongFrameLength]; lia).
  rewrite failIfNecessary_eq. unfold ret.
  eexists. split; [ reflexivity | ].
  cbn [in_ set_in set_tooLongFrameLength set_bytesToDiscard
       set_discardingTooLongFrame bytesToDiscard].
  destruct (frameLength - Buffer.Len (in_ s) =? 0);
    cbn [in_ set_in set_tooLongFrameLength set_bytesToDiscard
         set_discardingTooLongFrame bytesToDiscard discardingTooLongFrame
         tooLongFrameLength Buffer.unread negb];
    (repeat split; try reflexivity;
     try (apply skipn_all_Z; unfold Buffer.Len; lia);
     try apply after_precheck_config).
Qed.

Lemma oversized_frame_cut_short_starts_a_discard_witness :
  let this := set_in (Buffer.mk [] oversized_head []) tiny in
  exists this',
    decode this = (Ret None, this')
    /\ Buffer.unread (in_ this') = []
    /\ bytesToDiscard this' = 8
    /\ discardingTooLongFrame this' = true
    /\ tooLongFrameLength this' = 12
    /\ config this' = config this.
Proof.
  apply (oversized_frame_cut_short_starts_a_discard
           (set_in (Buffer.mk [] oversized_head []) tiny) 10);
    vm_compute; solve [ reflexivity | split; discriminate | discriminate ].
Defined.

(** ** Whole frames, and what is left behind them *)

Lemma firstn_skipn_app {A} (f rest : list A) n :
  (n <= length f)%nat ->
  firstn (length f - n) (skipn n (f ++ rest)) = skipn n f.
Proof.
  intros Hn. rewrite skipn_app.
  replace (n - length f)%nat with 0%nat by lia. cbn [skipn].
  rewrite firstn_app, length_skipn, Nat.sub_diag. cbn [firstn].
  rewrite app_nil_r. apply firstn_all2. rewrite length_skipn. lia.
Qed.

Lemma skipn_length_app {A} (f rest : list A) : skipn (length f) (f ++ rest) = rest.
Proof.
  rewrite skipn_app, skipn_all, Nat.sub_diag. reflexivity.
Qed.

(** The raw value read at the head of a buffer that begins with [pre], the
    length field lying within [pre]. *)
Lemma rawLength_head d bf pre rest af :
  (0 <=? lengthFieldOffset d) && (0 <=? lengthFieldLength d)
  && (lengthFieldOffset d + lengthFieldLength d <=? Z.of_nat (length pre))
  && (lengthFieldOffset d + lengthFieldLength d <? 2 ^ 63) = true ->
  rawLength (set_in (Buffer.mk bf (pre ++ rest) af) d)
  = rawLength (set_in (Buffer.mk [] pre []) d).
Proof.
  intros Hb.
  rewrite (rawLength_prefix (set_in (Buffer.mk bf (pre ++ rest) af) d)
             pre (rest ++ af)).
  - rewrite (rawLength_prefix (set_in (Buffer.mk [] pre []) d) pre []).
    + reflexivity.
    + reflexivity.
    + exact Hb.
  - cbn [in_ set_in Buffer.unread Buffer.after]. rewrite <- app_assoc. reflexivity.
  - exact Hb.
Qed.

Lemma whole_frame_step d f rest bf af :
  discardingTooLongFrame d = false ->
  whole_frame d f = true ->
  exists b',
    decode (set_in (Buffer.mk bf (f ++ rest) af) d)
    = (Ret (Some (payload_of d f)), set_in b' d)
    /\ Buffer.unread b' = rest.
Proof.
  intros Hmode Hf. unfold whole_frame in Hf.
  repeat (apply andb_prop in Hf; destruct Hf as [Hf ?]).
  destruct (rawLength (set_in (Buffer.mk [] f []) d)) as [raw | ] eqn:Hraw;
    [ | discriminate ].
  match goal with H : _ && _ = true |- _ =>
    apply andb_prop in H; destruct H as [Hnonneg Hfl] end.
  apply Z.leb_le in Hnonneg. apply Z.eqb_eq in Hfl.
  repeat match goal with
         | H : (_ <=? _) = true |- _ => apply Z.leb_le in H
         | H : (_ <? _) = true |- _ => apply Z.ltb_lt in H
         end.
  set (this := set_in (Buffer.mk bf (f ++ rest) af) d).
  assert (Hs : after_precheck this = this) by (apply after_precheck_normal; exact Hmode).
  assert (Hr : rawLength this = Ret raw).
  { subst this. rewrite rawLength_head; [ exact Hraw | ].
    repeat (apply andb_true_intro; split);
      first [ apply Z.leb_le | apply Z.ltb_lt ]; assumption. }
  destruct (decode_frame_step this raw) as (this' & Hd & Hbuf & Hst).
  { rewrite Hs. unfold extracts.
    change (adjustedFrameLength this raw) with (adjustedFrameLength d raw).
    subst this. cbn [in_ set_in lengthFieldOffset maxFrameLength initialBytesToStrip].
    unfold Buffer.Len. cbn [Buffer.unread]. rewrite length_app.
    repeat split; try assumption; try lia. }
  rewrite Hs in Hd, Hbuf, Hst.
  change (adjustedFrameLength this raw) with (adjustedFrameLength d raw) in Hd, Hbuf.
  change (initialBytesToStrip this) with (initialBytesToStrip d) in Hd.
  subst this. cbn [in_ set_in Buffer.unread] in Hd, Hbuf.
  rewrite Hfl in Hd, Hbuf.
  exists (in_ this'). split.
  - rewrite Hd. f_equal; [ | rewrite Hst at 1; reflexivity ].
    do 2 f_equal. unfold payload_of.
    replace (Z.to_nat (Z.of_nat (length f) - initialBytesToStrip d))
      with (length f - Z.to_nat (initialBytesToStrip d))%nat by lia.
    apply firstn_skipn_app. lia.
  - rewrite Hbuf, Nat2Z.id. apply skipn_length_app.
Qed.

Lemma incomplete_step d rest bf af :
  discardingTooLongFrame d = false ->
  incomplete d rest = true ->
  decode (set_in (Buffer.mk bf rest af) d)
  = (Ret None, set_in (Buffer.mk bf rest af) d).
Proof.
  intros Hmode Hi. unfold incomplete in Hi.
  apply orb_prop in Hi. destruct Hi as [Hi | Hi].
  - apply Z.ltb_lt in Hi. apply decode_waits_below_lengthFieldOffset; [ exact Hmode | ].
    exact Hi.
  - repeat (apply andb_prop in Hi; destruct Hi as [Hi ?]).
    destruct (rawLength (set_in (Buffer.mk [] rest []) d)) as [raw | ] eqn:Hraw;
      [ | discriminate ].
    repeat match goal with H : _ && _ = true |- _ =>
      apply andb_prop in H; destruct H as [H ?] end.
    set (this := set_in (Buffer.mk bf rest af) d).
    assert (Hr : rawLength this = Ret raw).
    { subst this. rewrite <- (app_nil_r rest) at 1.
      rewrite rawLength_head; [ exact Hraw | ].
      repeat (apply andb_true_intro; split); assumption. }
    repeat match goal with
           | H : (_ <=? _) = true |- _ => apply Z.leb_le in H
           | H : (_ <? _) = true |- _ => apply Z.ltb_lt in H
           end.
    rewrite decode_precheck. rewrite after_precheck_normal by exact Hmode.
    cbv zeta. rewrite Hr.
    change (adjustedFrameLength this raw) with (adjustedFrameLength d raw).
    destruct (Z.ltb_spec (Buffer.Len (in_ this)) (lengthFieldOffset this));
      [ reflexivity | ].
    destruct (Z.ltb_spec raw 0) as [? | _]; [ lia | ].
    unfold bind at 1. unfold ret at 1.
    destruct (Z.gtb_spec (adjustedFrameLength d raw) (maxFrameLength this))
      as [Hgt | _]; [ subst this; cbn [maxFrameLength set_in] in Hgt; lia | ].
    destruct (Z.ltb_spec (Buffer.Len (in_ this)) (adjustedFrameLength d raw))
      as [_ | Hge]; [ reflexivity | ].
    subst this. unfold Buffer.Len in Hge. cbn [in_ set_in Buffer.unread] in Hge. lia.
Qed.

Lemma frames_loop d fs rest :
  discardingTooLongFrame d = false ->
  forallb (whole_frame d) fs = true ->
  incomplete d rest = true ->
  forall resp bf af, exists b',
    Decode_loop (S (length fs)) resp
      (set_in (Buffer.mk bf (concat fs ++ rest) af) d)
    = Some (Ret (resp ++ map (payload_of d) fs), set_in b' d)
    /\ Buffer.unread b' = rest.
Proof.
  intros Hmode Hfs Hrest. induction fs as [| f fs IH]; intros resp bf af.
  - cbn [concat app length map]. rewrite Decode_loop_S.
    rewrite incomplete_step by assumption.
    rewrite app_nil_r. eexists. split; reflexivity.
  - cbn [forallb] in Hfs. apply andb_prop in Hfs. destruct Hfs as [Hf Hfs].
    cbn [concat length map]. rewrite Decode_loop_S, <- app_assoc.
    destruct (whole_frame_step d f (concat fs ++ rest) bf af Hmode Hf)
      as ([bf' u' af'] & -> & Hu).
    cbn [Buffer.unread] in Hu. subst u'.
    destruct (IH Hfs (resp ++ [payload_of d f]) bf' af') as (b' & Hloop & Hb').
    exists b'. split; [ | exact Hb' ].
    rewrite Hloop, <- app_assoc. reflexivity.
Qed.

Lemma Decode_frames d pending buff fs rest lay fuel bf af :
  discardingTooLongFrame d = false ->
  pending ++ buff = concat fs ++ rest ->
  forallb (whole_frame d) fs = true ->
  incomplete d rest = true ->
  (length fs < fuel)%nat ->
  exists b',
    Decode fuel buff lay (set_in (Buffer.mk bf pending af) d)
    = Some (Ret (map (payload_of d) fs), set_in b' d)
    /\ Buffer.unread b' = rest.
Proof.
  intros Hmode Heq Hfs Hrest Hfuel. unfold Decode.
  change (set_in (Buffer.Write buff lay (in_ (set_in (Buffer.mk bf pending af) d)))
            (set_in (Buffer.mk bf pending af) d))
    with (set_in (Buffer.mk (Buffer.lay_before lay) (pending ++ buff)
                    (Buffer.lay_after lay)) d).
  rewrite Heq.
  destruct (frames_loop d fs rest Hmode Hfs Hrest []
              (Buffer.lay_before lay) (Buffer.lay_after lay)) as (b' & Hloop & Hb').
  exists b'. split; [ | exact Hb' ].
  replace fuel with (S (length fs) + (fuel - S (length fs)))%nat by lia.
  apply Decode_loop_more_fuel. exact Hloop.
Qed.

(** X8. Outside discarding mode, when the pending bytes followed by the
    chunk are a sequence of whole frames followed by a remainder that
    makes the decoder wait, Decode returns the payloads of these frames,
    each frame without its first initialBytesToStrip bytes, in order, and
    keeps exactly the remainder buffered, whatever the layout of the
    backing array. *)
Theorem chunk_decodes_to_its_whole_frames d pending buff fs rest lay fuel bf af :
  discardingTooLongFrame d = false ->
  pending ++ buff = concat fs ++ rest ->
  forallb (whole_frame d) fs = true ->
  incomplete d rest = true ->
  (length fs < fuel)%nat ->
  exists b',
    Decode fuel buff lay (set_in (Buffer.mk bf pending af) d)
    = Some (Ret (map (payload_of d) fs), set_in b' d)
    /\ Buffer.unread b' = rest.
Proof. exact (Decode_frames d pending buff fs rest lay fuel bf af). Qed.

Lemma chunk_decodes_to_its_whole_frames_witness :
  exists b',
    Decode 3 (skipn 5 middle_frame ++ middle_frame ++ [xca; x00; x10])
      (Buffer.fresh 0)
      (set_in (Buffer.mk [] (firstn 5 middle_frame) []) doc_middle)
    = Some (Ret [middle_payload; middle_payload], set_in b' doc_middle)
    /\ Buffer.unread b' = [xca; x00; x10].
Proof.
  apply (chunk_decodes_to_its_whole_frames doc_middle (firstn 5 middle_frame)
           (skipn 5 middle_frame ++ middle_frame ++ [xca; x00; x10])
           [middle_frame; middle_frame] [xca; x00; x10] (Buffer.fresh 0) 3 [] []);
    try reflexivity.
  vm_compute. lia.
Defined.

(** Feeding groups of whole frames, one group a chunk. *)
Lemma feed_groups d fuel :
  discardingTooLongFrame d = false ->
  incomplete d [] = true ->
  forall (groups : list (list (list byte) * Buffer.Layout)) acc bf af,
    forallb (fun g => forallb (whole_frame d) (fst g)
                      && (length (fst g) <? fuel)%nat) groups = true ->
    exists b',
      feed_all fuel (map (fun g => (concat (fst g), snd g)) groups) acc
        (set_in (Buffer.mk bf [] af) d)
      = Some (Ret (acc ++ map (payload_of d) (concat (map fst groups))),
              set_in b' d)
      /\ Buffer.unread b' = [].
Proof.
  intros Hmode Hempty groups.
  induction groups as [| [fs lay] groups IH]; intros acc bf af Hg.
  - cbn [map feed_all concat]. rewrite app_nil_r. eexists. split; reflexivity.
  - cbn [forallb fst] in Hg. apply andb_prop in Hg. destruct Hg as [Hfs Hg].
    apply andb_prop in Hfs. destruct Hfs as [Hfs Hfuel].
    apply Nat.ltb_lt in Hfuel.
    cbn [map feed_all fst snd concat].
    destruct (Decode_frames d [] (concat fs) fs [] lay fuel bf af)
      as ([bf' u' af'] & -> & Hu); try assumption.
    { rewrite app_nil_r. reflexivity. }
    cbn [Buffer.unread] in Hu. subst u'.
    destruct (IH (acc ++ map (payload_of d) fs) bf' af' Hg) as (b' & Hfeed & Hb').
    exists b'. split; [ | exact Hb' ].
    rewrite Hfeed, map_app, app_assoc. reflexivity.
Qed.

(** X9. With lengthFieldOffset positive (an empty buffer waits), a
    stream of whole frames delivered in chunks that each hold whole
    frames gives, over the successive Decode calls, the same payloads as
    the stream delivered in one chunk; the buffer is empty at the end
    either way. *)
Theorem frame_aligned_chunks_decode_like_the_whole_stream
    d fuel (groups : list (list (list byte) * Buffer.Layout)) lay bf af :
  discardingTooLongFrame d = false ->
  incomplete d [] = true ->
  forallb (fun g => forallb (whole_frame d) (fst g)
                    && (length (fst g) <? fuel)%nat) groups = true ->
  (length (concat (map fst groups)) < fuel)%nat ->
  let frames := concat (map fst groups) in
  let this := set_in (Buffer.mk bf [] af) d in
  exists b1 b2,
    feed_all fuel (map (fun g => (concat (fst g), snd g)) groups) [] this
    = Some (Ret (map (payload_of d) frames), set_in b1 d)
    /\ feed_all fuel [(concat frames, lay)] [] this
       = Some (Ret (map (payload_of d) frames), set_in b2 d)
    /\ Buffer.unread b1 = [] /\ Buffer.unread b2 = [].
Proof.
  intros Hmode Hempty Hg Hfuel frames this.
  destruct (feed_groups d fuel Hmode Hempty groups [] bf af Hg) as (b1 & H1 & Hb1).
  destruct (feed_groups d fuel Hmode Hempty [(frames, lay)] [] bf af) as (b2 & H2 & Hb2).
  { cbn [forallb fst]. rewrite andb_true_r. apply andb_true_intro. split.
    - subst frames. clear - Hg. induction groups as [| g groups IH]; [ reflexivity | ].
      cbn [forallb] in Hg. apply andb_prop in Hg. destruct Hg as [Hgf Hg].
      apply andb_prop in Hgf. destruct Hgf as [Hgf _].
      cbn [map concat]. rewrite forallb_app, Hgf. cbn [andb]. apply IH. exact Hg.
    - apply Nat.ltb_lt. exact Hfuel. }
  exists b1, b2. cbn [map fst snd concat app] in H1, H2.
  rewrite app_nil_r in H2.
  repeat split; assumption.
Qed.

Lemma frame_aligned_chunks_decode_like_the_whole_stream_witness :
  exists b1 b2,
    feed_all 4 [(middle_frame ++ middle_frame, Buffer.fresh 0);
                (middle_frame, Buffer.fresh 3)] [] doc_middle
    = Some (Ret [middle_payload; middle_payload; middle_payload], set_in b1 doc_middle)
    /\ feed_all 4 [(middle_frame ++ middle_frame ++ middle_frame ++ [], Buffer.fresh 1)]
         [] doc_middle
       = Some (Ret [middle_payload; middle_payload; middle_payload],
               set_in b2 doc_middle)
    /\ Buffer.unread b1 = [] /\ Buffer.unread b2 = [].
Proof.
  apply (frame_aligned_chunks_decode_like_the_whole_stream doc_middle 4
           [([middle_frame; middle_frame], Buffer.fresh 0);
            ([middle_frame], Buffer.fresh 3)] (Buffer.fresh 1) [] []);
    try reflexivity.
  vm_compute. lia.
Defined.

(** A proper prefix of a whole frame makes the decoder wait, provided the
    cut does not fall inside the length field. *)
Lemma incomplete_prefix d f n :
  whole_frame d f = true ->
  (n < length f)%nat ->
  Z.of_nat n < lengthFieldOffset d
  \/ lengthFieldOffset d + lengthFieldLength d <= Z.of_nat n ->
  incomplete d (firstn n f) = true.
Proof.
  intros Hf Hn Hcut. unfold incomplete.
  assert (Hlen : length (firstn n f) = n) by (rewrite length_firstn; lia).
  rewrite Hlen. destruct Hcut as [Hcut | Hcut].
  - apply orb_true_intro. left. apply Z.ltb_lt. exact Hcut.
  - apply orb_true_intro. right. unfold whole_frame in Hf.
    repeat (apply andb_prop in Hf; destruct Hf as [Hf ?]).
    assert (Hhead : rawLength (set_in (Buffer.mk [] (firstn n f) []) d)
                    = rawLength (set_in (Buffer.mk [] f []) d)).
    { rewrite <- (firstn_skipn n f) at 2.
      rewrite <- (app_nil_r (firstn n f)) at 1.
      rewrite !rawLength_head; try reflexivity.
      all: rewrite Hlen.
      all: repeat (apply andb_true_intro; split); try assumption.
      all: apply Z.leb_le; exact Hcut. }
    rewrite Hhead.
    destruct (rawLength (set_in (Buffer.mk [] f []) d)) as [raw |]; [ | discriminate ].
    match goal with H : _ && _ = true |- _ =>
      apply andb_prop in H; destruct H as [Hnonneg Hfl] end.
    apply Z.eqb_eq in Hfl. rewrite Hfl.
    repeat (apply andb_true_intro; split); try assumption.
    + apply Z.leb_le. exact Hcut.
    + apply Z.ltb_lt. lia.
Qed.

(** X10. With lengthFieldOffset positive, a whole frame cut into two
    chunks before its length field begins or after it ends is resumed:
    the first Decode returns an empty list and keeps the first chunk
    buffered, the second returns the frame's payload and empties the
    buffer. *)
Theorem frame_cut_outside_the_length_field_is_resumed d f n lay1 lay2 fuel bf af :
  discardingTooLongFrame d = false ->
  incomplete d [] = true ->
  whole_frame d f = true ->
  (n < length f)%nat ->
  Z.of_nat n < lengthFieldOffset d
  \/ lengthFieldOffset d + lengthFieldLength d <= Z.of_nat n ->
  (1 < fuel)%nat ->
  exists b1 b2,
    Decode fuel (firstn n f) lay1 (set_in (Buffer.mk bf [] af) d)
    = Some (Ret [], set_in b1 d)
    /\ Buffer.unread b1 = firstn n f
    /\ Decode fuel (skipn n f) lay2 (set_in b1 d)
       = Some (Ret [payload_of d f], set_in b2 d)
    /\ Buffer.unread b2 = []
    /\ feed_all fuel [(firstn n f, lay1); (skipn n f, lay2)] []
         (set_in (Buffer.mk bf [] af) d)
       = Some (Ret [payload_of d f], set_in b2 d).
Proof.
  intros Hmode Hempty Hf Hn Hcut Hfuel.
  destruct (Decode_frames d [] (firstn n f) [] (firstn n f) lay1 fuel bf af)
    as ([bf1 u1 af1] & H1 & Hu1); try assumption; try reflexivity.
  { apply incomplete_prefix; assumption. }
  { cbn [length]. lia. }
  cbn [Buffer.unread] in Hu1. subst u1.
  destruct (Decode_frames d (firstn n f) (skipn n f) [f] [] lay2 fuel bf1 af1)
    as (b2 & H2 & Hu2); try assumption.
  { rewrite firstn_skipn. cbn [concat]. rewrite !app_nil_r. reflexivity. }
  { cbn [forallb]. rewrite Hf. reflexivity. }
  exists (Buffer.mk bf1 (firstn n f) af1), b2.
  cbn [map] in H1, H2.
  repeat split; try assumption.
  cbn [feed_all]. rewrite H1. cbn [app]. rewrite H2. reflexivity.
Qed.

Lemma frame_cut_outside_the_length_field_is_resumed_witness :
  exists b1 b2,
    Decode 2 [xca; x00; x10] (Buffer.fresh 0) doc_middle
    = Some (Ret [], set_in b1 doc_middle)
    /\ Buffer.unread b1 = [xca; x00; x10]
    /\ Decode 2 (xfe :: HELLO_WORLD) (Buffer.fresh 0) (set_in b1 doc_middle)
       = Some (Ret [middle_payload], set_in b2 doc_middle)
    /\ Buffer.unread b2 = []
    /\ feed_all 2 [([xca; x00; x10], Buffer.fresh 0);
                   (xfe :: HELLO_WORLD, Buffer.fresh 0)] [] doc_middle
       = Some (Ret [middle_payload], set_in b2 doc_middle).
Proof.
  apply (frame_cut_outside_the_length_field_is_resumed doc_middle middle_frame 3
           (Buffer.fresh 0) (Buffer.fresh 0) 2 [] []);
    try reflexivity; try (vm_compute; lia).
  right. vm_compute. discriminate.
Defined.

(** ** What is kept, and where a payload comes from *)

(** X11. No decode step, and no sequence of Decode calls, changes the
    configuration (maxFrameLength, lengthFieldOffset, lengthFieldLength,
    lengthFieldEndOffset, lengthAdjustment, initialBytesToStrip, failFast,
    byteOrder), whatever the outcome. *)
Theorem configuration_is_never_changed :
  (forall this, config (snd (decode this)) = config this)
  /\ (forall fuel chunks acc this,
         match feed_all fuel chunks acc this with
         | Some (_, this') => config this' = config this
         | None => True
         end).
Proof.
  split.
  - exact keeps_decode.
  - intros fuel chunks acc this.
    destruct (feed_all fuel chunks acc this) as [[o this'] |] eqn:H; [ | exact I ].
    eapply feed_all_config. exact H.
Qed.

(** X12. When the length field is read, the raw length is not negative,
    the frame length is within maxFrameLength and within the buffered
    bytes, and initialBytesToStrip is within the frame length, the step
    returns the frame without its first initialBytesToStrip bytes, a
    payload of frameLength - initialBytesToStrip bytes.  Counted from the
    state in which the field is read (the entry state, or the one the
    discard pre-check leaves), it takes exactly frameLength bytes off
    the buffer and changes no other field. *)
Theorem frame_is_extracted this raw :
  let s := after_precheck this in
  let frameLength := adjustedFrameLength s raw in
  let strip := initialBytesToStrip s in
  extracts s raw ->
  exists payload this',
    decode this = (Ret (Some payload), this')
    /\ payload = firstn (Z.to_nat (frameLength - strip))
                   (skipn (Z.to_nat strip) (Buffer.unread (in_ s)))
    /\ Z.of_nat (length payload) = frameLength - strip
    /\ Buffer.unread (in_ this')
       = skipn (Z.to_nat frameLength) (Buffer.unread (in_ s))
    /\ Buffer.Len (in_ this') = Buffer.Len (in_ s) - frameLength
    /\ this' = set_in (in_ this') s.
Proof.
  intros s frameLength strip Hex.
  destruct (decode_frame_step this raw Hex) as (this' & Hd & Hbuf & Hst).
  destruct Hex as (Hoff & Hraw & Hnonneg & Hmax & Hlen & Hstrip).
  fold frameLength in Hmax, Hlen, Hstrip, Hd, Hbuf. fold strip in Hstrip, Hd.
  eexists. exists this'. split; [ exact Hd | ].
  split; [ reflexivity | ].
  unfold Buffer.Len in *. rewrite Hbuf.
  rewrite length_firstn, !length_skipn.
  subst frameLength strip s.
  repeat split; try assumption; lia.
Qed.

Lemma frame_is_extracted_witness :
  exists payload this',
    decode (set_in (Buffer.mk [] (middle_frame ++ [xca]) []) doc_middle)
    = (Ret (Some payload), this')
    /\ payload = middle_payload
    /\ Z.of_nat (length payload) = 13
    /\ Buffer.unread (in_ this') = [xca]
    /\ Buffer.Len (in_ this') = 1
    /\ this' = set_in (in_ this')
                 (set_in (Buffer.mk [] (middle_frame ++ [xca]) []) doc_middle).
Proof.
  apply (frame_is_extracted
           (set_in (Buffer.mk [] (middle_frame ++ [xca]) []) doc_middle) 16).
  vm_compute. repeat split; discriminate.
Defined.

(** X13. A step returns a payload in no other way: whenever decode
    returns one, the raw length read was not negative, the frame length
    was within maxFrameLength and within the buffered bytes, the payload
    is the frame without its first initialBytesToStrip bytes (so its
    length plus initialBytesToStrip is the frame length, at most
    maxFrameLength), and, counted from the state in which the field was
    read (the entry state, or the one the discard pre-check leaves),
    exactly the frame left the buffer and no other field changed. *)
Theorem payload_comes_from_one_frame this payload this' :
  decode this = (Ret (Some payload), this') ->
  let s := after_precheck this in
  exists raw,
    rawLength s = Ret raw
    /\ 0 <= raw
    /\ let frameLength := adjustedFrameLength s raw in
       let strip := initialBytesToStrip s in
       0 <= strip <= frameLength
       /\ frameLength <= maxFrameLength s
       /\ frameLength <= Buffer.Len (in_ s)
       /\ payload = firstn (Z.to_nat (frameLength - strip))
                      (skipn (Z.to_nat strip) (Buffer.unread (in_ s)))
       /\ Z.of_nat (length payload) + strip = frameLength
       /\ Buffer.unread (in_ this')
          = skipn (Z.to_nat frameLength) (Buffer.unread (in_ s))
       /\ this' = set_in (in_ this') s.
Proof.
  intros H s. destruct (decode_Some_extracts _ _ _ H) as [raw Hex].
  destruct (decode_frame_step this raw Hex) as (s' & Hs' & Hbuf & Hst).
  rewrite H in Hs'. injection Hs' as Hp <-.
  destruct Hex as (Hoff & Hraw & Hnonneg & Hmax & Hlen & Hstrip).
  exists raw. fold s in Hraw, Hmax, Hlen, Hstrip, Hbuf, Hst, Hp.
  cbv zeta. repeat split; try assumption; try lia.
  rewrite Hp, length_firstn, length_skipn. unfold Buffer.Len in Hlen. lia.
Qed.

Lemma payload_comes_from_one_frame_witness :
  let this := set_in (Buffer.mk [] (middle_frame ++ [xca]) []) doc_middle in
  exists raw,
    rawLength this = Ret raw
    /\ 0 <= raw
    /\ 0 <= 3 <= adjustedFrameLength this raw
    /\ adjustedFrameLength this raw <= 1024
    /\ adjustedFrameLength this raw <= 17
    /\ middle_payload
       = firstn (Z.to_nat (adjustedFrameLength this raw - 3))
           (skipn 3 (middle_frame ++ [xca]))
    /\ 13 + 3 = adjustedFrameLength this raw
    /\ Buffer.unread (in_ (snd (decode this)))
       = skipn (Z.to_nat (adjustedFrameLength this raw)) (middle_frame ++ [xca])
    /\ snd (decode this) = set_in (in_ (snd (decode this))) this.
Proof.
  exact (payload_comes_from_one_frame
           (set_in (Buffer.mk [] (middle_frame ++ [xca]) []) doc_middle)
           middle_payload
           (snd (decode (set_in (Buffer.mk [] (middle_frame ++ [xca]) []) doc_middle)))
           eq_refl).
Defined.

(** ** The value of the length field and the frame length *)

Lemma getUnadjustedFrameLength_width this buf off len order raw :
  getUnadjustedFrameLength this buf off len order = Ret raw ->
  supported_width len = true
  /\ (len = 1 \/ len = 3 -> 0 <= raw < 2 ^ (8 * len))
  /\ (len = 2 \/ len = 4 \/ len = 8 -> - 2 ^ (8 * len - 1) <= raw < 2 ^ (8 * len - 1)).
Proof.
  unfold getUnadjustedFrameLength, supported_width.
  destruct (Buffer.reslice _ _ _) as [arr |]; [ | discriminate ].
  unfold binary.Read_uint8, binary.Read_int16, binary.Read_int32,
    binary.Read_int64, binary.nthb.
  destruct (Z.eqb_spec len 1) as [-> | ?];
    [ | destruct (Z.eqb_spec len 2) as [-> | ?];
        [ | destruct (Z.eqb_spec len 3) as [-> | ?];
            [ | destruct (Z.eqb_spec len 4) as [-> | ?];
                [ | destruct (Z.eqb_spec len 8) as [-> | ?]; [ | discriminate ] ] ] ] ].
  - intros H. split; [ reflexivity | ]. split; [ intros _ | intros [? | [? | ?]]; lia ].
    destruct (_ <? _)%nat; apply Ret_inj in H; subst raw;
      bytes_in_range; change (2 ^ (8 * 1)) with 256; lia.
  - intros H. split; [ reflexivity | ]. split; [ intros [? | ?]; lia | intros _ ].
    pose proof (to_signed_range 16 (binary.Uint16 order (Buffer.elems arr))).
    change (8 * 2 - 1) with (16 - 1).
    destruct (_ <? _)%nat; apply Ret_inj in H; subst raw; lia.
  - intros H. split; [ reflexivity | ]. split; [ intros _ | intros [? | [? | ?]]; lia ].
    change (2 ^ (8 * 3)) with 16777216.
    destruct order; apply Ret_inj in H; subst raw;
      bytes_in_range; lor_to_sum; lia.
  - intros H. split; [ reflexivity | ]. split; [ intros [? | ?]; lia | intros _ ].
    pose proof (to_signed_range 32 (binary.Uint32 order (Buffer.elems arr))).
    change (8 * 4 - 1) with (32 - 1).
    destruct (_ <? _)%nat; apply Ret_inj in H; subst raw; lia.
  - intros H. split; [ reflexivity | ]. split; [ intros [? | ?]; lia | intros _ ].
    pose proof (to_signed_range 64 (binary.Uint64 order (Buffer.elems arr))).
    change (8 * 8 - 1) with (64 - 1).
    destruct (_ <? _)%nat; apply Ret_inj in H; subst raw; lia.
Qed.

(** X14. Whenever getUnadjustedFrameLength returns a value, the width is
    1, 2, 3, 4 or 8 and the value fits it: between 0 and 2^(8*width) for
    the unsigned widths 1 and 3, between -2^(8*width-1) and 2^(8*width-1)
    for the signed widths 2, 4 and 8. *)
Theorem raw_length_fits_the_field_width this buf off len order raw :
  getUnadjustedFrameLength this buf off len order = Ret raw ->
  supported_width len = true
  /\ (len = 1 \/ len = 3 -> 0 <= raw < 2 ^ (8 * len))
  /\ (len = 2 \/ len = 4 \/ len = 8 -> - 2 ^ (8 * len - 1) <= raw < 2 ^ (8 * len - 1)).
Proof. exact (getUnadjustedFrameLength_width this buf off len order raw). Qed.

Lemma raw_length_fits_the_field_width_witness :
  supported_width 3 = true
  /\ (3 = 1 \/ 3 = 3 -> 0 <= 16777215 < 2 ^ (8 * 3))
  /\ (3 = 2 \/ 3 = 4 \/ 3 = 8 -> - 2 ^ (8 * 3 - 1) <= 16777215 < 2 ^ (8 * 3 - 1)).
Proof.
  apply (raw_length_fits_the_field_width
           (NewLengthFieldFrameDecoder 1024 1 3 0 0)
           (Buffer.mk [] [xca; xff; xff; xff; x41] []) 1 3 BigEndian 16777215).
  reflexivity.
Defined.

(** X15. For a length field narrower than 8 bytes and lengthAdjustment +
    lengthFieldEndOffset within 2^62, the frame length decode computes is
    the exact sum raw + lengthAdjustment + lengthFieldEndOffset: the
    int64 arithmetic does not wrap. *)
Theorem narrow_field_frame_length_is_the_plain_sum s raw :
  rawLength s = Ret raw ->
  lengthFieldLength s <> 8 ->
  - 2 ^ 62 <= lengthAdjustment s + lengthFieldEndOffset s < 2 ^ 62 ->
  adjustedFrameLength s raw = raw + lengthAdjustment s + lengthFieldEndOffset s
  /\ - 2 ^ 31 <= raw < 2 ^ 31.
Proof.
  intros Hraw Hlen Hadj.
  destruct (getUnadjustedFrameLength_width _ _ _ _ _ _ Hraw) as (Hw & Hu & Hs).
  assert (Hr : - 2 ^ 31 <= raw < 2 ^ 31).
  { unfold supported_width in Hw.
    repeat (apply orb_prop in Hw; destruct Hw as [Hw | Hw]);
      apply Z.eqb_eq in Hw; try contradiction;
      rewrite Hw in Hu, Hs; cbn in Hu, Hs; lia. }
  split; [ | exact Hr ].
  unfold adjustedFrameLength.
  rewrite (wrap64_small (lengthAdjustment s + lengthFieldEndOffset s)) by lia.
  rewrite wrap64_small by lia. lia.
Qed.

Lemma narrow_field_frame_length_is_the_plain_sum_witness :
  let s := set_in (Buffer.mk [] middle_frame []) doc_middle in
  adjustedFrameLength s 16 = 16 + -3 + 3 /\ - 2 ^ 31 <= 16 < 2 ^ 31.
Proof.
  apply (narrow_field_frame_length_is_the_plain_sum
           (set_in (Buffer.mk [] middle_frame []) doc_middle) 16).
  - reflexivity.
  - discriminate.
  - vm_compute. split; [ discriminate | reflexivity ].
Defined.

(** X16. With an 8-byte length field the sum can pass 2^63: the frame
    length then wraps to raw + lengthAdjustment + lengthFieldEndOffset -
    2^64, a negative number, which passes the maxFrameLength check, and
    the step panics on a slice expression instead of treating the frame
    as too long, leaving the state as it was when the length field was
    read (the entry state, or the one the discard pre-check leaves). *)
Theorem wide_field_overflow_panics_on_the_slice this raw :
  let s := after_precheck this in
  let a := lengthAdjustment s + lengthFieldEndOffset s in
  lengthFieldOffset s <= Buffer.Len (in_ s) ->
  rawLength s = Ret raw ->
  0 <= a < 2 ^ 62 ->
  2 ^ 63 <= raw + a ->
  0 <= maxFrameLength s ->
  adjustedFrameLength s raw = raw + a - 2 ^ 64
  /\ adjustedFrameLength s raw < 0
  /\ decode this = (Panics SliceBounds, s).
Proof.
  intros s a Hoff Hraw Ha Hover Hmax.
  pose proof (getUnadjustedFrameLength_range _ _ _ _ _ _ Hraw) as Hr.
  assert (Hfl : adjustedFrameLength s raw = raw + a - 2 ^ 64).
  { unfold adjustedFrameLength. fold a.
    rewrite (wrap64_small a) by lia. apply wrap64_high. lia. }
  split; [ exact Hfl | ]. split; [ lia | ].
  apply (decode_negative_frameLength this raw); try assumption; fold s; lia.
Qed.

Lemma wide_field_overflow_panics_on_the_slice_witness :
  let this := set_in (Buffer.mk [] [x7f; xff; xff; xff; xff; xff; xff; xff; x41] [])
                (NewLengthFieldFrameDecoder 1024 0 8 0 0) in
  adjustedFrameLength this (2 ^ 63 - 1) = 2 ^ 63 - 1 + 8 - 2 ^ 64
  /\ adjustedFrameLength this (2 ^ 63 - 1) < 0
  /\ decode this = (Panics SliceBounds, this).
Proof.
  apply (wide_field_overflow_panics_on_the_slice
           (set_in (Buffer.mk [] [x7f; xff; xff; xff; xff; xff; xff; xff; x41] [])
              (NewLengthFieldFrameDecoder 1024 0 8 0 0)) (2 ^ 63 - 1));
    vm_compute; solve [ reflexivity | split; [ discriminate | reflexivity ] | discriminate ].
Defined.

(** ** A panic loses the frames of its call *)

Lemma whole_frame_step_room d f rest bf af :
  discardingTooLongFrame d = false ->
  whole_frame d f = true ->
  rest <> [] ->
  exists bf',
    decode (set_in (Buffer.mk bf (f ++ rest) af) d)
    = (Ret (Some (payload_of d f)), set_in (Buffer.mk bf' rest af) d).
Proof.
  intros Hmode Hf Hrest.
  destruct (whole_frame_step d f rest bf af Hmode Hf) as ([bf' u' af'] & Hd & Hu).
  cbn [Buffer.unread] in Hu. subst u'.
  destruct (drops_decode (set_in (Buffer.mk bf (f ++ rest) af) d)) as (k & _ & Hroom).
  rewrite Hd in Hroom. cbn [snd in_ set_in Buffer.unread Buffer.after] in Hroom.
  rewrite (Hroom Hrest) in Hd. exists bf'. exact Hd.
Qed.

Lemma frames_then_panic d fs rest af :
  discardingTooLongFrame d = false ->
  forallb (whole_frame d) fs = true ->
  rest <> [] ->
  lengthFieldOffset d <= Z.of_nat (length rest) ->
  Z.of_nat (length rest) + Z.of_nat (length af)
  < wrap64 (lengthFieldOffset d + lengthFieldLength d) ->
  forall resp bf, exists bf',
    Decode_loop (S (length fs)) resp
      (set_in (Buffer.mk bf (concat fs ++ rest) af) d)
    = Some (Panics SliceBounds, set_in (Buffer.mk bf' rest af) d).
Proof.
  intros Hmode Hfs Hrest Hoff Hcap. induction fs as [| f fs IH]; intros resp bf.
  - cbn [concat app length]. rewrite Decode_loop_S.
    rewrite decode_panics_past_capacity; [ exists bf; reflexivity | .. ];
      cbn [in_ set_in Buffer.unread Buffer.after]; unfold Buffer.Len;
      cbn [Buffer.unread]; assumption.
  - cbn [forallb] in Hfs. apply andb_prop in Hfs. destruct Hfs as [Hf Hfs].
    cbn [concat length]. rewrite Decode_loop_S, <- app_assoc.
    destruct (whole_frame_step_room d f (concat fs ++ rest) bf af Hmode Hf)
      as (bf' & ->).
    { intros Hnil. apply app_eq_nil in Hnil. destruct Hnil as [_ Hnil].
      contradiction. }
    apply (IH Hfs).
Qed.

(** X17. A panic loses the frames of its call: when the pending bytes
    followed by the chunk are whole frames followed by a non-empty
    remainder that reaches lengthFieldOffset while the backing array ends
    before the length field does, Decode panics on the slice expression;
    the frames before the remainder have left the buffer, which holds the
    remainder only, and are not returned. *)
Theorem panic_on_a_cut_length_field_loses_the_frames_before_it
    d pending buff fs rest lay fuel bf af :
  discardingTooLongFrame d = false ->
  pending ++ buff = concat fs ++ rest ->
  forallb (whole_frame d) fs = true ->
  rest <> [] ->
  lengthFieldOffset d <= Z.of_nat (length rest) ->
  Z.of_nat (length rest) + Z.of_nat (length (Buffer.lay_after lay))
  < wrap64 (lengthFieldOffset d + lengthFieldLength d) ->
  (length fs < fuel)%nat ->
  exists bf',
    Decode fuel buff lay (set_in (Buffer.mk bf pending af) d)
    = Some (Panics SliceBounds,
            set_in (Buffer.mk bf' rest (Buffer.lay_after lay)) d).
Proof.
  intros Hmode Heq Hfs Hrest Hoff Hcap Hfuel. unfold Decode.
  change (set_in (Buffer.Write buff lay (in_ (set_in (Buffer.mk bf pending af) d)))
            (set_in (Buffer.mk bf pending af) d))
    with (set_in (Buffer.mk (Buffer.lay_before lay) (pending ++ buff)
                    (Buffer.lay_after lay)) d).
  rewrite Heq.
  destruct (frames_then_panic d fs rest (Buffer.lay_after lay)
              Hmode Hfs Hrest Hoff Hcap [] (Buffer.lay_before lay)) as (bf' & Hloop).
  exists bf'.
  replace fuel with (S (length fs) + (fuel - S (length fs)))%nat by lia.
  apply Decode_loop_more_fuel. exact Hloop.
Qed.

Lemma panic_on_a_cut_length_field_loses_the_frames_before_it_witness :
  exists bf',
    Decode 5 (hello_frame ++ hello_frame ++ [x00]) (Buffer.fresh 0)
      (set_in (Buffer.mk [] [] []) doc_strip)
    = Some (Panics SliceBounds, set_in (Buffer.mk bf' [x00] []) doc_strip).
Proof.
  apply (panic_on_a_cut_length_field_loses_the_frames_before_it
           doc_strip [] (hello_frame ++ hello_frame ++ [x00])
           [hello_frame; hello_frame] [x00] (Buffer.fresh 0) 5 [] []).
  - reflexivity.
  - reflexivity.
  - vm_compute. reflexivity.
  - discriminate.
  - vm_compute. discriminate.
  - vm_compute. reflexivity.
  - cbn [length]. lia.
Defined.
